(** * maxlloc: a page-mapping allocator (maxlloc.h)

    A shallow embedding of [maxlloc.h]: the size rounder
    [_maxlloc_round_up_to_page_size], and the four entry points [maxlloc],
    [free], [calloc] and [realloc], over a byte-addressed model of the process
    address space in which [mmap] and [munmap] are the only way memory appears
    and disappears.

    - [size_t] values and pointers are [Z] with the wrap-around modulo
      [2 ^ size_bits] written out ([wrap]);
    - memory is a finite map from addresses to bytes whose domain is exactly
      the set of mapped addresses; an access outside the domain is a fault;
    - the operating system's answer to the one [mmap] call an entry point can
      make is an argument ([reply]); what the OS may answer is the predicate
      [reply_ok];
    - every system call is recorded in a trace, so that "no mapping was
      requested" and "exactly these bytes were unmapped" can be stated. *)

From Stdlib Require Import ZArith Lia List Bool.
From stdpp Require Import base option gmap list fin_maps.

Open Scope Z_scope.

(** ** The platform *)

(** What the C translation unit takes from its environment:
    [sizeof(size_t)], [sizeof(MaxllocHeader)] (a union of a [uintptr_t] and a
    [size_t]) and the value of [getpagesize()]. *)
Class Platform := {
  sizeof_size_t : Z;
  sizeof_header : Z;
  getpagesize : Z
}.

(** The usual 64-bit platform: 8-byte [size_t], 8-byte header, 4 KiB pages. *)
Definition LP64 : Platform :=
  {| sizeof_size_t := 8; sizeof_header := 8; getpagesize := 4096 |}.

(** ** Memory and the operating system *)

(** A system call made by the allocator, with what it was asked and, for
    [mmap], what it answered. *)
Inductive syscall : Type :=
  | Mmap (len : Z) (ret : Z)
  | Munmap (addr : Z) (len : Z).

(** The process state the allocator acts on: the mapped bytes (address to byte
    value, a byte being a [Z] in [0, 256)) and the system calls made so far. *)
Record state : Type := mkState {
  st_mem : gmap Z Z;
  st_trace : list syscall
}.

(** An operation either faults (an access to an unmapped address, or a call
    whose behaviour C leaves undefined) or returns a value and a state. *)
Inductive outcome (A : Type) : Type :=
  | Fault
  | Ok (a : A) (st : state).
Global Arguments Fault {A}.
Global Arguments Ok {A} a st.

Definition M (A : Type) : Type := state → outcome A.

Definition ret {A} (a : A) : M A := fun st => Ok a st.

Definition bind {A B} (c : M A) (k : A → M B) : M B :=
  fun st => match c st with
            | Fault => Fault
            | Ok a st' => k a st'
            end.

Notation "'let*' x ':=' c 'in' k" := (bind c (fun x => k))
  (at level 10, x name, c at level 100, k at level 200).

(** [n] bytes starting at [a]; [None] when one of them is not mapped. *)
Fixpoint read_bytes (m : gmap Z Z) (a : Z) (n : nat) : option (list Z) :=
  match n with
  | O => Some []
  | S k =>
      match m !! a, read_bytes m (a + 1) k with
      | Some b, Some bs => Some (b :: bs)
      | _, _ => None
      end
  end.

(** Overwrite the bytes starting at [a] with [bs]; [None] when one of the
    target addresses is not mapped. *)
Fixpoint write_bytes (m : gmap Z Z) (a : Z) (bs : list Z) : option (gmap Z Z) :=
  match bs with
  | [] => Some m
  | b :: bs' =>
      match m !! a with
      | Some _ => write_bytes (<[a := b]> m) (a + 1) bs'
      | None => None
      end
  end.

(** Fresh pages: [n] zero bytes appear at [a]. *)
Fixpoint map_zero (m : gmap Z Z) (a : Z) (n : nat) : gmap Z Z :=
  match n with
  | O => m
  | S k => <[a := 0]> (map_zero m (a + 1) k)
  end.

(** The [n] addresses starting at [a] leave the address space. *)
Fixpoint unmap (m : gmap Z Z) (a : Z) (n : nat) : gmap Z Z :=
  match n with
  | O => m
  | S k => delete a (unmap m (a + 1) k)
  end.

Fixpoint all_mapped (m : gmap Z Z) (a : Z) (n : nat) : bool :=
  match n with
  | O => true
  | S k => match m !! a with Some _ => all_mapped m (a + 1) k | None => false end
  end.

Fixpoint none_mapped (m : gmap Z Z) (a : Z) (n : nat) : bool :=
  match n with
  | O => true
  | S k => match m !! a with Some _ => false | None => none_mapped m (a + 1) k end
  end.

(** An unsigned integer in memory: its bytes, least significant first. *)
Fixpoint encode_le (n : nat) (v : Z) : list Z :=
  match n with
  | O => []
  | S k => v mod 256 :: encode_le k (v / 256)
  end.

Fixpoint decode_le (bs : list Z) : Z :=
  match bs with
  | [] => 0
  | b :: bs' => b + 256 * decode_le bs'
  end.

Section Maxlloc.

Context {pf : Platform}.

(** Number of bits of a [size_t]. *)
Definition size_bits : Z := 8 * sizeof_size_t.

(** [SIZE_MAX + 1]. *)
Definition size_modulus : Z := 2 ^ size_bits.

(** Unsigned arithmetic of C wraps modulo [2 ^ size_bits]. *)
Definition wrap (x : Z) : Z := x mod size_modulus.

(** A sane platform: the header holds a [size_t], is smaller than a page, and
    the page size is a power of two that a [size_t] can hold. *)
Definition platform_okb : bool :=
  (0 <? sizeof_size_t) && (sizeof_size_t <=? sizeof_header)
  && (sizeof_header <? getpagesize)
  && (getpagesize =? 2 ^ Z.log2 getpagesize)
  && (Z.log2 getpagesize <? size_bits).

Definition platform_ok : Prop := platform_okb = true.

(** ** Size rounder *)

(** [_maxlloc_round_up_to_page_size], statement by statement. *)
Definition _maxlloc_round_up_to_page_size (size : Z) : Z :=
  let page_size := wrap (getpagesize - 1) in
  let size := wrap (size + sizeof_header) in
  let size := wrap (size + page_size) in
  let size := Z.land size (wrap (Z.lnot page_size)) in
  size.

(** [r] is the smallest multiple of the page size that is at least [x]. *)
Definition least_page_multiple_ge (x r : Z) : Prop :=
  (getpagesize | r) ∧ x ≤ r ∧ ∀ r', (getpagesize | r') → x ≤ r' → r ≤ r'.

(** ** Sized loads and stores, system calls *)

Definition load_size (m : gmap Z Z) (a : Z) : option Z :=
  match read_bytes m a (Z.to_nat sizeof_size_t) with
  | Some bs => Some (decode_le bs)
  | None => None
  end.

Definition store_size (m : gmap Z Z) (a : Z) (v : Z) : option (gmap Z Z) :=
  write_bytes m a (encode_le (Z.to_nat sizeof_size_t) v).

Definition NULL : Z := 0.

(** [MAP_FAILED] is [(void * ) -1]. *)
Definition MAP_FAILED : Z := wrap (-1).

(** [header->block_size] read. *)
Definition get_block_size (header : Z) : M Z :=
  fun st => match load_size (st_mem st) header with
            | Some v => Ok v st
            | None => Fault
            end.

(** [header->block_size = v]. *)
Definition set_block_size (header : Z) (v : Z) : M unit :=
  fun st => match store_size (st_mem st) header v with
            | Some m => Ok tt (mkState m (st_trace st))
            | None => Fault
            end.

(** [memset(dst, c, n)]: each of the [n] bytes receives [c] converted to
    [unsigned char]. *)
Definition memset (dst : Z) (c : Z) (n : Z) : M unit :=
  fun st => match write_bytes (st_mem st) dst
                    (replicate (Z.to_nat n) (c mod 256)) with
            | Some m => Ok tt (mkState m (st_trace st))
            | None => Fault
            end.

(** [memcpy(dst, src, n)]; overlapping regions are undefined behaviour. *)
Definition memcpy (dst : Z) (src : Z) (n : Z) : M unit :=
  fun st =>
    if (0 <? n) && (dst <? src + n) && (src <? dst + n) then Fault
    else match read_bytes (st_mem st) src (Z.to_nat n) with
         | Some bs =>
             match write_bytes (st_mem st) dst bs with
             | Some m => Ok tt (mkState m (st_trace st))
             | None => Fault
             end
         | None => Fault
         end.

(** [mmap(NULL, len, PROT_READ | PROT_WRITE, MAP_PRIVATE | MAP_ANONYMOUS, -1, 0)].
    [reply] is the operating system's decision: [None] to refuse, [Some base]
    to map [len] zero bytes at [base]. *)
Definition mmap (reply : option Z) (len : Z) : M Z :=
  fun st =>
    match reply with
    | Some base =>
        Ok base (mkState (map_zero (st_mem st) base (Z.to_nat len))
                         (st_trace st ++ [Mmap len base]))
    | None =>
        Ok MAP_FAILED (mkState (st_mem st) (st_trace st ++ [Mmap len MAP_FAILED]))
    end.

(** The whole pages needed to cover [len] bytes. *)
Definition page_span (len : Z) : Z :=
  getpagesize * ((len + getpagesize - 1) / getpagesize).

(** [munmap(addr, len)]. The call is refused ([EINVAL]) and changes nothing
    when [addr] is not page-aligned, when [len] is 0 or when the range leaves
    the address space; otherwise every page that holds a part of the range
    leaves the address space. No caller looks at the result, so a refused
    call shows only in the trace. *)
Definition munmap (addr : Z) (len : Z) : M unit :=
  fun st =>
    if (addr mod getpagesize =? 0) && (0 <? len)
       && (0 <=? addr) && (addr + len <=? size_modulus)
    then Ok tt (mkState (unmap (st_mem st) addr (Z.to_nat (page_span len)))
                        (st_trace st ++ [Munmap addr len]))
    else Ok tt (mkState (st_mem st) (st_trace st ++ [Munmap addr len])).

(** What the operating system may answer to a request for [len] bytes in
    state [st]: it may always refuse; when it grants, the request is not
    empty and the region is page-aligned, inside the address space and made
    of addresses that were not mapped. *)
Definition reply_okb (st : state) (len : Z) (reply : option Z) : bool :=
  match reply with
  | None => true
  | Some base =>
      (0 <? len) && (0 <=? base) && (base mod getpagesize =? 0)
      && (base + len <=? size_modulus)
      && none_mapped (st_mem st) base (Z.to_nat len)
  end.

Definition reply_ok (st : state) (len : Z) (reply : option Z) : Prop :=
  reply_okb st len reply = true.

(** ** The allocator *)

(** [maxlloc]. *)
Definition maxlloc (reply : option Z) (size : Z) : M Z :=
  if size =? 0 then ret NULL
  else
    let size := _maxlloc_round_up_to_page_size size in
    let* header := mmap reply size in
    if header =? MAP_FAILED then ret NULL
    else
      let* _ := set_block_size header size in
      ret (wrap (header + sizeof_header)).

(** [free]. *)
Definition free (ptr : Z) : M unit :=
  if ptr =? NULL then ret tt
  else
    let header := wrap (ptr - sizeof_header) in
    let* block_size := get_block_size header in
    munmap header block_size.

(** [calloc]. *)
Definition calloc (reply : option Z) (count : Z) (size : Z) : M Z :=
  let total_size := wrap (count * size) in
  let* ptr := maxlloc reply total_size in
  if negb (ptr =? NULL) then
    let* _ := memset ptr 0 total_size in
    ret ptr
  else ret ptr.

(** [realloc]. *)
Definition realloc (reply : option Z) (ptr : Z) (size : Z) : M Z :=
  if size =? 0 then
    let* _ := free ptr in
    ret NULL
  else if ptr =? NULL then maxlloc reply size
  else
    let old_header := wrap (ptr - sizeof_header) in
    let* old_size := get_block_size old_header in
    let new_size := _maxlloc_round_up_to_page_size size in
    if new_size <=? old_size then ret ptr
    else
      let* new_header := mmap reply new_size in
      if new_header =? MAP_FAILED then ret NULL
      else
        let* _ := memcpy (wrap (new_header + sizeof_header)) ptr
                         (wrap (old_size - sizeof_header)) in
        let* _ := set_block_size new_header new_size in
        let* _ := free ptr in
        ret (wrap (new_header + sizeof_header)).

(** ** Live blocks *)

(** [p] is the payload pointer of a live block of [total] bytes: the block
    starts [sizeof_header] bytes before [p] on a page boundary, is a positive
    whole number of pages inside the address space, is mapped throughout and
    carries [total] in its header. *)
Definition liveb (st : state) (p : Z) (total : Z) : bool :=
  let base := p - sizeof_header in
  (0 <=? base) && (base mod getpagesize =? 0)
  && (0 <? total) && (total mod getpagesize =? 0)
  && (base + total <=? size_modulus)
  && match load_size (st_mem st) base with
     | Some v => v =? total
     | None => false
     end
  && all_mapped (st_mem st) base (Z.to_nat total).

Definition live (st : state) (p : Z) (total : Z) : Prop :=
  liveb st p total = true.

(** [p] is the payload pointer of some live block, and so lies
    [sizeof_header] bytes past a page boundary. *)
Definition header_past_page (st : state) (p : Z) : Prop :=
  (∃ total, live st p total) ∧
  (p - sizeof_header) mod getpagesize = 0 ∧
  p mod getpagesize = sizeof_header mod getpagesize.

(** What the specification says [Resize(p, 0)] is: [Release(p)], then the
    null result. *)
Definition release_then_null (ptr : Z) : M Z :=
  fun st => match free ptr st with
            | Fault => Fault
            | Ok _ st' => Ok NULL st'
            end.

End Maxlloc.

(** ** Example states *)

(** A process with nothing mapped and no system call made yet. *)
Definition empty_process : state := mkState ∅ [].

(** The same process after [maxlloc(100)] was granted the page at address
    4096: one live block of 4096 bytes with payload pointer 4104. *)
Definition one_block : state :=
  match @maxlloc LP64 (Some 4096) 100 empty_process with
  | Ok _ st => st
  | Fault => empty_process
  end.

(** Then a second [maxlloc(100)], granted the page at address 8192. *)
Definition two_blocks : state :=
  match @maxlloc LP64 (Some 8192) 100 one_block with
  | Ok _ st => st
  | Fault => one_block
  end.

(** * Properties *)

(** ** Byte ranges *)

Lemma all_mapped_spec (m : gmap Z Z) a n :
  all_mapped m a n = true ↔
  ∀ i, a ≤ i < a + Z.of_nat n → is_Some (m !! i).
Proof.
  revert a. induction n as [| n IH]; intros a; simpl.
  - split; [intros _ i Hi; lia | done].
  - destruct (m !! a) as [b |] eqn:Ha.
    + rewrite IH. split.
      * intros H i Hi. destruct (decide (i = a)) as [-> | Hne]; [by eexists |].
        apply H. lia.
      * intros H i Hi. apply H. lia.
    + split; [done |]. intros H.
      destruct (H a ltac:(lia)) as [b Hb]. congruence.
Qed.

Lemma none_mapped_spec (m : gmap Z Z) a n :
  none_mapped m a n = true ↔
  ∀ i, a ≤ i < a + Z.of_nat n → m !! i = None.
Proof.
  revert a. induction n as [| n IH]; intros a; simpl.
  - split; [intros _ i Hi; lia | done].
  - destruct (m !! a) as [b |] eqn:Ha.
    + split; [done |]. intros H. rewrite (H a) in Ha by lia. done.
    + rewrite IH. split.
      * intros H i Hi. destruct (decide (i = a)) as [-> | Hne]; [done |].
        apply H. lia.
      * intros H i Hi. apply H. lia.
Qed.

Lemma lookup_map_zero (m : gmap Z Z) a n i :
  map_zero m a n !! i =
  if decide (a ≤ i < a + Z.of_nat n) then Some 0 else m !! i.
Proof.
  revert a. induction n as [| n IH]; intros a; simpl.
  - case_decide; [lia | done].
  - destruct (decide (a = i)) as [-> | Hne].
    + rewrite lookup_insert_eq. case_decide; [done | lia].
    + rewrite lookup_insert_ne, IH by done.
      repeat case_decide; done || lia.
Qed.

Lemma lookup_unmap (m : gmap Z Z) a n i :
  unmap m a n !! i =
  if decide (a ≤ i < a + Z.of_nat n) then None else m !! i.
Proof.
  revert a. induction n as [| n IH]; intros a; simpl.
  - case_decide; [lia | done].
  - destruct (decide (a = i)) as [-> | Hne].
    + rewrite lookup_delete_eq. case_decide; [done | lia].
    + rewrite lookup_delete_ne, IH by done.
      repeat case_decide; done || lia.
Qed.

(** [read_bytes] succeeds exactly on mapped ranges and returns what is there. *)
Lemma read_bytes_spec (m : gmap Z Z) a n bs :
  read_bytes m a n = Some bs ↔
  length bs = n ∧ ∀ j, (j < n)%nat → m !! (a + Z.of_nat j) = bs !! j.
Proof.
  revert a bs. induction n as [| n IH]; intros a bs; simpl.
  - split.
    + intros [= <-]. split; [done |]. intros j Hj. lia.
    + intros [Hl _]. destruct bs; [done | discriminate].
  - split.
    + destruct (m !! a) as [b |] eqn:Ha; [| done].
      destruct (read_bytes m (a + 1) n) as [bs' |] eqn:Hr; [| done].
      intros [= <-]. apply IH in Hr as [Hl Hr]. split; [simpl; lia |].
      intros [| j] Hj; simpl.
      * by rewrite Z.add_0_r.
      * rewrite <- Hr by lia. f_equal. lia.
    + intros [Hl Hj]. destruct bs as [| b bs']; [discriminate |].
      pose proof (Hj 0%nat ltac:(lia)) as H0. simpl in H0.
      rewrite Z.add_0_r in H0. rewrite H0.
      assert (read_bytes m (a + 1) n = Some bs') as ->; [| done].
      apply IH. split; [simpl in Hl; lia |].
      intros j Hlt. assert (S j < S n)%nat as HS by lia.
      specialize (Hj (S j) HS). change ((b :: bs') !! S j) with (bs' !! j) in Hj.
      rewrite <- Hj. f_equal. lia.
Qed.

Lemma read_bytes_mapped (m : gmap Z Z) a n :
  all_mapped m a n = true → is_Some (read_bytes m a n).
Proof.
  revert a. induction n as [| n IH]; intros a; simpl; [by eexists |].
  destruct (m !! a); [| done]. intros H. destruct (IH _ H) as [bs ->].
  by eexists.
Qed.

(** Reading depends only on the bytes read. *)
Lemma read_bytes_ext (m m' : gmap Z Z) a n :
  (∀ i, a ≤ i < a + Z.of_nat n → m !! i = m' !! i) →
  read_bytes m a n = read_bytes m' a n.
Proof.
  revert a. induction n as [| n IH]; intros a H; simpl; [done |].
  rewrite (H a) by lia. rewrite IH; [done |]. intros i Hi. apply H. lia.
Qed.

Lemma write_bytes_mapped (m : gmap Z Z) a bs :
  all_mapped m a (length bs) = true → is_Some (write_bytes m a bs).
Proof.
  revert m a. induction bs as [| b bs IH]; intros m a; simpl; [by eexists |].
  destruct (m !! a) eqn:Ha; [| done]. intros H. apply IH.
  apply all_mapped_spec. intros i Hi.
  rewrite all_mapped_spec in H. specialize (H i Hi).
  destruct (decide (a = i)) as [-> | Hne].
  - rewrite lookup_insert_eq. by eexists.
  - by rewrite lookup_insert_ne.
Qed.

(** After a write, the target range holds the written bytes and every other
    address is as before. *)
Lemma write_bytes_lookup (m m' : gmap Z Z) a bs i :
  write_bytes m a bs = Some m' →
  m' !! i =
  if decide (a ≤ i < a + Z.of_nat (length bs))
  then bs !! Z.to_nat (i - a) else m !! i.
Proof.
  revert m a. induction bs as [| b bs IH]; intros m a; simpl.
  - intros [= <-]. case_decide; [lia | done].
  - destruct (m !! a) eqn:Ha; [| done]. intros Hw.
    rewrite (IH _ _ Hw).
    destruct (decide (a = i)) as [-> | Hne].
    + rewrite lookup_insert_eq, Z.sub_diag.
      repeat case_decide; done || lia.
    + rewrite lookup_insert_ne by done.
      repeat case_decide; try done; try lia.
      replace (Z.to_nat (i - a)) with (S (Z.to_nat (i - (a + 1)))) by lia.
      done.
Qed.

Lemma read_after_write (m m' : gmap Z Z) a bs :
  write_bytes m a bs = Some m' → read_bytes m' a (length bs) = Some bs.
Proof.
  intros Hw. apply read_bytes_spec. split; [done |]. intros j Hj.
  rewrite (write_bytes_lookup _ _ _ _ _ Hw).
  case_decide; [| lia]. f_equal. lia.
Qed.

Lemma write_bytes_dom (m m' : gmap Z Z) a bs i :
  write_bytes m a bs = Some m' → is_Some (m' !! i) ↔ is_Some (m !! i).
Proof.
  revert m a. induction bs as [| b bs IH]; intros m a; simpl.
  - by intros [= <-].
  - destruct (m !! a) eqn:Ha; [| done]. intros Hw.
    rewrite (IH _ _ Hw). destruct (decide (a = i)) as [-> | Hne].
    + rewrite lookup_insert_eq, Ha. split; by eexists.
    + by rewrite lookup_insert_ne.
Qed.

(** A range of unmapped addresses and a range of mapped ones do not meet. *)
Lemma fresh_disjoint (m : gmap Z Z) a n b k :
  0 < n → 0 < k →
  (∀ i, a ≤ i < a + n → m !! i = None) →
  (∀ i, b ≤ i < b + k → is_Some (m !! i)) →
  a + n ≤ b ∨ b + k ≤ a.
Proof.
  intros Hn Hk Hf Hm.
  destruct (Z_le_gt_dec (a + n) b); [by left |].
  destruct (Z_le_gt_dec (b + k) a); [by right |].
  exfalso. destruct (Hm (Z.max a b) ltac:(lia)) as [x Hx].
  rewrite Hf in Hx by lia. done.
Qed.

Lemma length_encode_le n v : length (encode_le n v) = n.
Proof. revert v. induction n; intros v; simpl; [done | by rewrite IHn]. Qed.

Lemma decode_encode_le n v :
  decode_le (encode_le n v) = v mod 256 ^ Z.of_nat n.
Proof.
  revert v. induction n as [| n IH]; intros v.
  - simpl. by rewrite Z.mod_1_r.
  - cbn [encode_le decode_le]. rewrite IH.
    rewrite Nat2Z.inj_succ, Z.pow_succ_r by lia.
    rewrite Z.rem_mul_r by lia. lia.
Qed.

Section Properties.

Context {pf : Platform}.
Hypothesis Hpf : platform_ok.

(** ** Platform arithmetic *)

Lemma platform_facts :
  0 < sizeof_size_t ∧ sizeof_size_t ≤ sizeof_header ∧
  sizeof_header < getpagesize ∧
  getpagesize = 2 ^ Z.log2 getpagesize ∧
  Z.log2 getpagesize < size_bits.
Proof.
  pose proof Hpf as H. unfold platform_ok, platform_okb in H.
  repeat (apply andb_prop in H; destruct H as [H ?]).
  repeat split; lia.
Qed.

Lemma size_modulus_pages :
  size_modulus = getpagesize * 2 ^ (size_bits - Z.log2 getpagesize).
Proof.
  destruct platform_facts as (_ & _ & _ & Hp & Hk).
  pose proof (Z.log2_nonneg getpagesize) as Hk0.
  set (k := Z.log2 getpagesize) in *.
  unfold size_modulus. rewrite Hp, <- Z.pow_add_r by lia. f_equal. lia.
Qed.

Lemma getpagesize_bounds : 1 < getpagesize ∧ 2 * getpagesize ≤ size_modulus.
Proof.
  destruct platform_facts as (H0 & H1 & H2 & Hp & Hk).
  split; [lia |].
  rewrite size_modulus_pages.
  assert (2 ^ 1 ≤ 2 ^ (size_bits - Z.log2 getpagesize))
    by (apply Z.pow_le_mono_r; lia).
  nia.
Qed.

Lemma size_modulus_pos : 0 < size_modulus.
Proof. pose proof getpagesize_bounds. lia. Qed.

Lemma wrap_small x : 0 ≤ x < size_modulus → wrap x = x.
Proof. intros. unfold wrap. apply Z.mod_small. done. Qed.

Lemma wrap_range x : 0 ≤ wrap x < size_modulus.
Proof. unfold wrap. apply Z.mod_pos_bound, size_modulus_pos. Qed.

Lemma MAP_FAILED_eq : MAP_FAILED = size_modulus - 1.
Proof.
  unfold MAP_FAILED, wrap. pose proof size_modulus_pos.
  symmetry. apply (Z.mod_unique _ _ (-1)); lia.
Qed.

(** Clearing the low bits of the page mask rounds down to a page boundary. *)
Lemma mask_rounds_down y :
  0 ≤ y < size_modulus →
  Z.land y (wrap (Z.lnot (wrap (getpagesize - 1)))) =
  getpagesize * (y / getpagesize).
Proof.
  intros Hy.
  destruct platform_facts as (_ & _ & _ & Hp & Hk).
  pose proof (Z.log2_nonneg getpagesize) as Hk0.
  pose proof getpagesize_bounds as [Hp1 Hp2].
  assert (Hw : 0 ≤ size_bits) by lia.
  rewrite (wrap_small (getpagesize - 1)) by lia.
  set (k := Z.log2 getpagesize) in *.
  replace (getpagesize - 1) with (Z.ones k)
    by (rewrite Z.ones_equiv; lia).
  unfold wrap, size_modulus.
  rewrite <- (Z.land_ones _ size_bits) by done.
  rewrite (Z.land_comm (Z.lnot _)), Z.land_assoc.
  rewrite (Z.land_ones y) by done.
  rewrite (Z.mod_small y) by done.
  rewrite <- Z.ldiff_land, Z.ldiff_ones_r by done.
  rewrite Z.shiftl_mul_pow2, Z.shiftr_div_pow2 by done.
  rewrite <- Hp. lia.
Qed.

Lemma round_up_unfold s :
  _maxlloc_round_up_to_page_size s =
  getpagesize *
    (wrap (wrap (s + sizeof_header) + wrap (getpagesize - 1)) / getpagesize).
Proof.
  unfold _maxlloc_round_up_to_page_size.
  apply mask_rounds_down, wrap_range.
Qed.

(** Whatever the request, the rounder answers a [size_t] that is a whole
    number of pages. *)
Lemma round_up_range s :
  0 ≤ _maxlloc_round_up_to_page_size s < size_modulus.
Proof.
  rewrite round_up_unfold.
  pose proof getpagesize_bounds as [Hp1 _].
  pose proof (wrap_range (wrap (s + sizeof_header) + wrap (getpagesize - 1))) as Hr.
  set (y := wrap _) in *.
  assert (0 < getpagesize) as Hp0 by lia.
  pose proof (Z.mul_div_le y getpagesize Hp0).
  pose proof (Z.div_pos y getpagesize (proj1 Hr) Hp0).
  nia.
Qed.

Lemma round_up_aligned s :
  _maxlloc_round_up_to_page_size s mod getpagesize = 0.
Proof.
  rewrite round_up_unfold, Z.mul_comm. apply Z.mod_mul.
  pose proof getpagesize_bounds. lia.
Qed.

(** Without wrap-around the rounder is the usual round-up formula. *)
Lemma round_up_no_wrap s :
  0 ≤ s → s + sizeof_header + getpagesize - 1 < size_modulus →
  _maxlloc_round_up_to_page_size s =
  getpagesize * ((s + sizeof_header + getpagesize - 1) / getpagesize).
Proof.
  intros Hs Hlt.
  destruct platform_facts as (H0 & H1 & H2 & _).
  pose proof getpagesize_bounds as [Hp1 Hp2].
  rewrite round_up_unfold.
  rewrite (wrap_small (getpagesize - 1)) by lia.
  rewrite (wrap_small (s + sizeof_header)) by lia.
  rewrite wrap_small by lia.
  do 2 f_equal. lia.
Qed.

Lemma round_up_formula_least x :
  least_page_multiple_ge x (getpagesize * ((x + getpagesize - 1) / getpagesize)).
Proof.
  pose proof getpagesize_bounds as [Hp1 _].
  set (P := getpagesize) in *.
  assert (P ≠ 0) as Hne by lia. assert (0 < P) as Hp0 by lia.
  pose proof (Z.div_mod (x + P - 1) P Hne) as Hdm.
  pose proof (Z.mod_pos_bound (x + P - 1) P Hp0) as Hmb.
  repeat split.
  - exists ((x + P - 1) / P). lia.
  - lia.
  - intros r' [q ->] Hx.
    assert ((x + P - 1) / P ≤ q) as Hq; [| nia].
    assert ((x + P - 1) / P < q + 1); [| lia].
    apply Z.div_lt_upper_bound; [lia |]. nia.
Qed.

(** On requests that do not wrap, the rounder leaves room for the header. *)
Lemma round_up_ge s :
  0 ≤ s → s + sizeof_header + getpagesize - 1 < size_modulus →
  s + sizeof_header ≤ _maxlloc_round_up_to_page_size s.
Proof.
  intros Hs Hlt. rewrite round_up_no_wrap by done.
  replace (s + sizeof_header + getpagesize - 1)
    with ((s + sizeof_header) + getpagesize - 1) by lia.
  apply round_up_formula_least.
Qed.

(** ** The header word *)

Lemma byte_pow_size_t : 256 ^ Z.of_nat (Z.to_nat sizeof_size_t) = size_modulus.
Proof.
  destruct platform_facts as (H0 & _).
  rewrite Z2Nat.id by lia. unfold size_modulus, size_bits.
  rewrite Z.pow_mul_r by lia. done.
Qed.

(** A stored size reads back. *)
Lemma load_store_size (m m' : gmap Z Z) a v :
  0 ≤ v < size_modulus →
  store_size m a v = Some m' → load_size m' a = Some v.
Proof.
  intros Hv Hs. unfold store_size in Hs. unfold load_size.
  apply read_after_write in Hs. rewrite length_encode_le in Hs.
  rewrite Hs, decode_encode_le, byte_pow_size_t.
  f_equal. by apply Z.mod_small.
Qed.

Lemma load_size_ext (m m' : gmap Z Z) a :
  (∀ i, a ≤ i < a + sizeof_size_t → m !! i = m' !! i) →
  load_size m a = load_size m' a.
Proof.
  intros H. unfold load_size.
  destruct platform_facts as (H0 & _).
  rewrite (read_bytes_ext m m'); [done |].
  intros i Hi. apply H. lia.
Qed.

Lemma store_size_mapped (m : gmap Z Z) a v :
  (∀ i, a ≤ i < a + sizeof_size_t → is_Some (m !! i)) →
  is_Some (store_size m a v).
Proof.
  intros H. apply write_bytes_mapped. rewrite length_encode_le.
  apply all_mapped_spec. intros i Hi. apply H.
  destruct platform_facts as (H0 & _). lia.
Qed.

Lemma store_size_other (m m' : gmap Z Z) a v i :
  store_size m a v = Some m' →
  ¬ (a ≤ i < a + sizeof_size_t) → m' !! i = m !! i.
Proof.
  intros Hs Hi. unfold store_size in Hs.
  rewrite (write_bytes_lookup _ _ _ _ _ Hs), length_encode_le.
  destruct platform_facts as (H0 & _).
  case_decide; [lia | done].
Qed.

Lemma store_size_dom (m m' : gmap Z Z) a v i :
  store_size m a v = Some m' → is_Some (m' !! i) ↔ is_Some (m !! i).
Proof. apply write_bytes_dom. Qed.

(** ** Live blocks, unpacked *)

Lemma live_spec st p total :
  live st p total ↔
  0 ≤ p - sizeof_header ∧ (p - sizeof_header) mod getpagesize = 0 ∧
  0 < total ∧ total mod getpagesize = 0 ∧
  p - sizeof_header + total ≤ size_modulus ∧
  load_size (st_mem st) (p - sizeof_header) = Some total ∧
  ∀ i, p - sizeof_header ≤ i < p - sizeof_header + total →
       is_Some (st_mem st !! i).
Proof.
  unfold live, liveb. cbv zeta.
  rewrite !andb_true_iff, all_mapped_spec.
  rewrite Z.leb_le, !Z.eqb_eq, Z.ltb_lt, Z.leb_le.
  split.
  - intros ((((((? & ?) & ?) & ?) & ?) & Hl) & Hm).
    destruct (load_size _ _) as [v |]; [| done].
    apply Z.eqb_eq in Hl as ->.
    repeat split; try done. intros i Hi. apply Hm. lia.
  - intros (? & ? & ? & ? & ? & -> & Hm).
    repeat split; try done; [by apply Z.eqb_eq |].
    intros i Hi. apply Hm. lia.
Qed.

(** A live block is at least a page, so it has room for its header, and its
    payload pointer is a non-null address inside it. *)
Lemma live_bounds st p total :
  live st p total →
  getpagesize ≤ total ∧ sizeof_header < total ∧
  0 < p < size_modulus ∧ total ≤ size_modulus ∧
  wrap (p - sizeof_header) = p - sizeof_header.
Proof.
  intros (Hb & Hba & Ht & Hta & Hend & _)%live_spec.
  destruct platform_facts as (H0 & H1 & H2 & _).
  pose proof getpagesize_bounds as [Hp1 Hp2].
  apply Z.mod_divide in Hta as [q ->]; [| lia].
  assert (1 ≤ q) by nia.
  assert (getpagesize ≤ q * getpagesize) by nia.
  rewrite wrap_small by lia. lia.
Qed.

Lemma page_multiple_ge n :
  0 < n → n mod getpagesize = 0 → getpagesize ≤ n.
Proof.
  intros Hn Hna. pose proof getpagesize_bounds as [Hp1 _].
  apply Z.mod_divide in Hna as [q ->]; [| lia].
  assert (1 ≤ q) by nia. nia.
Qed.

Lemma aligned_not_MAP_FAILED base :
  base mod getpagesize = 0 → base ≠ MAP_FAILED.
Proof.
  intros Hb ->. rewrite MAP_FAILED_eq, size_modulus_pages in Hb.
  pose proof getpagesize_bounds as [Hp1 _].
  apply Z.mod_divide in Hb as [q Hq]; [| lia].
  assert (getpagesize * (2 ^ (size_bits - Z.log2 getpagesize) - q) = 1) as H1
    by lia.
  apply Z.mul_eq_1 in H1. lia.
Qed.

Lemma reply_ok_spec st len base :
  reply_ok st len (Some base) ↔
  0 < len ∧ 0 ≤ base ∧ base mod getpagesize = 0 ∧
  base + len ≤ size_modulus ∧
  ∀ i, base ≤ i < base + len → st_mem st !! i = None.
Proof.
  unfold reply_ok, reply_okb.
  rewrite !andb_true_iff, none_mapped_spec.
  rewrite Z.ltb_lt, !Z.leb_le, Z.eqb_eq.
  split.
  - intros ((((? & ?) & ?) & ?) & Hm). repeat split; try done.
    intros i Hi. apply Hm. lia.
  - intros (? & ? & ? & ? & Hm). repeat split; try done.
    intros i Hi. apply Hm. lia.
Qed.

(** ** [free] *)

Lemma page_span_aligned n :
  n mod getpagesize = 0 → page_span n = n.
Proof.
  intros Hn. pose proof getpagesize_bounds as [Hp1 _].
  apply Z.mod_divide in Hn as [q ->]; [| lia]. unfold page_span.
  replace (q * getpagesize + getpagesize - 1)
    with (q * getpagesize + (getpagesize - 1)) by lia.
  rewrite Z.div_add_l, Z.div_small by lia. lia.
Qed.

Lemma free_null st : free NULL st = Ok tt st.
Proof. done. Qed.

Lemma free_live st p total :
  live st p total →
  free p st =
  Ok tt (mkState (unmap (st_mem st) (p - sizeof_header) (Z.to_nat total))
                 (st_trace st ++ [Munmap (p - sizeof_header) total])).
Proof.
  intros Hl. pose proof (live_bounds _ _ _ Hl) as (_ & _ & Hp & _ & Hw).
  apply live_spec in Hl as (Hb & Hba & Ht & Hta & Hend & Hload & _).
  unfold free, NULL. destruct (Z.eqb_spec p 0) as [| _]; [lia |].
  unfold bind, get_block_size. rewrite Hw, Hload. unfold munmap.
  rewrite Hba, Z.eqb_refl, (page_span_aligned total Hta).
  destruct (Z.ltb_spec 0 total); [| lia].
  destruct (Z.leb_spec 0 (p - sizeof_header)); [| lia].
  destruct (Z.leb_spec (p - sizeof_header + total) size_modulus); [| lia].
  done.
Qed.

(** ** A freshly mapped and stamped block *)

Lemma new_block st base n m' tr :
  reply_ok st n (Some base) →
  n mod getpagesize = 0 → n < size_modulus →
  store_size (map_zero (st_mem st) base (Z.to_nat n)) base n = Some m' →
  live (mkState m' tr) (base + sizeof_header) n ∧
  (∀ i, base + sizeof_size_t ≤ i < base + n → m' !! i = Some 0) ∧
  (∀ i, ¬ (base ≤ i < base + n) → m' !! i = st_mem st !! i).
Proof.
  intros (Hn & Hb & Hba & Hend & Hfresh)%reply_ok_spec Hna Hlt Hs.
  destruct platform_facts as (H0 & H1 & H2 & _).
  pose proof getpagesize_bounds as [Hp1 _].
  pose proof (page_multiple_ge n Hn Hna) as Hpn.
  split; [| split].
  - apply live_spec. simpl. replace (base + sizeof_header - sizeof_header)
      with base by lia.
    repeat split; try done; try lia.
    + eapply load_store_size; [| exact Hs]. lia.
    + intros i Hi. rewrite (store_size_dom _ _ _ _ _ Hs), lookup_map_zero.
      case_decide; [by eexists | lia].
  - intros i Hi. rewrite (store_size_other _ _ _ _ _ Hs) by lia.
    rewrite lookup_map_zero. case_decide; [done | lia].
  - intros i Hi. rewrite (store_size_other _ _ _ _ _ Hs) by lia.
    rewrite lookup_map_zero. case_decide; [lia | done].
Qed.

Lemma new_block_stamp (m : gmap Z Z) base n :
  getpagesize ≤ n →
  is_Some (store_size (map_zero m base (Z.to_nat n)) base n).
Proof.
  intros Hn. destruct platform_facts as (H0 & H1 & H2 & _).
  apply store_size_mapped. intros i Hi.
  rewrite lookup_map_zero. case_decide; [by eexists | lia].
Qed.

(** ** [maxlloc] *)

Lemma maxlloc_zero reply st : maxlloc reply 0 st = Ok NULL st.
Proof. done. Qed.

Lemma maxlloc_refused size st :
  size ≠ 0 →
  maxlloc None size st =
  Ok NULL (mkState (st_mem st)
             (st_trace st ++
                [Mmap (_maxlloc_round_up_to_page_size size) MAP_FAILED])).
Proof.
  intros Hs. unfold maxlloc. destruct (Z.eqb_spec size 0); [done |].
  unfold bind, mmap. by rewrite Z.eqb_refl.
Qed.

Lemma maxlloc_granted size base st :
  size ≠ 0 →
  reply_ok st (_maxlloc_round_up_to_page_size size) (Some base) →
  ∃ m',
    store_size (map_zero (st_mem st) base
                  (Z.to_nat (_maxlloc_round_up_to_page_size size)))
               base (_maxlloc_round_up_to_page_size size) = Some m' ∧
    maxlloc (Some base) size st =
    Ok (base + sizeof_header)
       (mkState m' (st_trace st ++
                      [Mmap (_maxlloc_round_up_to_page_size size) base])).
Proof.
  intros Hs Hr. set (n := _maxlloc_round_up_to_page_size size) in *.
  pose proof Hr as (Hn & Hb & Hba & Hend & _)%reply_ok_spec.
  pose proof (round_up_aligned size) as Hna. fold n in Hna.
  destruct platform_facts as (H0 & H1 & H2 & _).
  pose proof getpagesize_bounds as [Hp1 _].
  pose proof (page_multiple_ge n Hn Hna) as Hpn.
  destruct (new_block_stamp (st_mem st) base n Hpn) as [m' Hm'].
  exists m'. split; [done |].
  unfold maxlloc. destruct (Z.eqb_spec size 0); [done |].
  fold n. unfold bind, mmap.
  destruct (Z.eqb_spec base MAP_FAILED) as [He |_].
  { by apply aligned_not_MAP_FAILED in He. }
  unfold set_block_size. cbn [st_mem st_trace]. rewrite Hm'.
  unfold ret. rewrite wrap_small by lia. done.
Qed.

Lemma round_up_zero : _maxlloc_round_up_to_page_size 0 = getpagesize.
Proof.
  destruct platform_facts as (H0 & H1 & H2 & _).
  pose proof getpagesize_bounds as [Hp1 Hp2].
  rewrite round_up_no_wrap by lia.
  replace (0 + sizeof_header + getpagesize - 1)
    with (1 * getpagesize + (sizeof_header - 1)) by lia.
  rewrite Z.div_add_l by lia. rewrite Z.div_small by lia. lia.
Qed.

(** ** [realloc] *)

Lemma realloc_zero reply p st :
  realloc reply p 0 st = release_then_null p st.
Proof.
  unfold realloc, release_then_null, bind, ret. simpl.
  by destruct (free p st).
Qed.

Lemma realloc_null reply size st :
  size ≠ 0 → realloc reply NULL size st = maxlloc reply size st.
Proof.
  intros Hs. unfold realloc. by destruct (Z.eqb_spec size 0).
Qed.

(** A request that grows a live block is not a request for nothing. *)
Lemma grow_nonzero st p total size :
  live st p total →
  total < _maxlloc_round_up_to_page_size size → size ≠ 0.
Proof.
  intros Hl Hlt ->. rewrite round_up_zero in Hlt.
  apply live_bounds in Hl. lia.
Qed.

(** The common prefix of the two branches that look at the old header. *)
Lemma realloc_live st reply p total size :
  live st p total → size ≠ 0 →
  realloc reply p size st =
  if _maxlloc_round_up_to_page_size size <=? total then Ok p st
  else
    (let* new_header := mmap reply (_maxlloc_round_up_to_page_size size) in
     if new_header =? MAP_FAILED then ret NULL
     else
       let* _ := memcpy (wrap (new_header + sizeof_header)) p
                        (wrap (total - sizeof_header)) in
       let* _ := set_block_size new_header
                   (_maxlloc_round_up_to_page_size size) in
       let* _ := free p in
       ret (wrap (new_header + sizeof_header))) st.
Proof.
  intros Hl Hs. pose proof (live_bounds _ _ _ Hl) as (_ & _ & Hp & _ & Hw).
  apply live_spec in Hl as (_ & _ & _ & _ & _ & Hload & _).
  unfold realloc. destruct (Z.eqb_spec size 0); [done |].
  unfold NULL. destruct (Z.eqb_spec p 0); [lia |].
  unfold bind at 1. unfold get_block_size. rewrite Hw, Hload.
  by destruct (_ <=? _).
Qed.

Lemma realloc_fits st reply p total size :
  live st p total → size ≠ 0 →
  _maxlloc_round_up_to_page_size size ≤ total →
  realloc reply p size st = Ok p st.
Proof.
  intros Hl Hs Hle. rewrite (realloc_live _ _ _ _ _ Hl Hs).
  by destruct (Z.leb_spec (_maxlloc_round_up_to_page_size size) total); [| lia].
Qed.

Lemma realloc_refused st p total size :
  live st p total →
  total < _maxlloc_round_up_to_page_size size →
  realloc None p size st =
  Ok NULL (mkState (st_mem st)
             (st_trace st ++
                [Mmap (_maxlloc_round_up_to_page_size size) MAP_FAILED])).
Proof.
  intros Hl Hlt. pose proof (grow_nonzero _ _ _ _ Hl Hlt) as Hs.
  rewrite (realloc_live _ _ _ _ _ Hl Hs).
  destruct (Z.leb_spec (_maxlloc_round_up_to_page_size size) total); [lia |].
  unfold bind, mmap. by rewrite Z.eqb_refl.
Qed.

(** The growing branch, when the operating system grants the new mapping. *)
Lemma realloc_moved st p total size base :
  live st p total →
  total < _maxlloc_round_up_to_page_size size →
  reply_ok st (_maxlloc_round_up_to_page_size size) (Some base) →
  ∃ m',
    realloc (Some base) p size st =
    Ok (base + sizeof_header)
       (mkState m'
          (st_trace st ++
             [Mmap (_maxlloc_round_up_to_page_size size) base;
              Munmap (p - sizeof_header) total])) ∧
    base + sizeof_header ≠ p ∧
    load_size m' base = Some (_maxlloc_round_up_to_page_size size) ∧
    (∀ j, 0 ≤ j < total - sizeof_header →
          m' !! (base + sizeof_header + j) = st_mem st !! (p + j)) ∧
    (∀ i, base + total ≤ i < base + _maxlloc_round_up_to_page_size size →
          m' !! i = Some 0) ∧
    (∀ i, base ≤ i < base + _maxlloc_round_up_to_page_size size →
          is_Some (m' !! i)) ∧
    (∀ i, p - sizeof_header ≤ i < p - sizeof_header + total →
          m' !! i = None) ∧
    (∀ i, ¬ (base ≤ i < base + _maxlloc_round_up_to_page_size size) →
          ¬ (p - sizeof_header ≤ i < p - sizeof_header + total) →
          m' !! i = st_mem st !! i).
Proof.
  intros Hl Hlt Hr.
  pose proof (grow_nonzero _ _ _ _ Hl Hlt) as Hs.
  pose proof (round_up_aligned size) as Hna.
  pose proof (round_up_range size) as Hnr.
  set (n := _maxlloc_round_up_to_page_size size) in *.
  pose proof (live_bounds _ _ _ Hl) as (Hpt & Hht & Hp & Htm & Hw).
  pose proof Hl as (Hb & Hba & Ht & Hta & Hend & Hload & Hmapped)%live_spec.
  pose proof Hr as (Hn & Hnb & Hnba & Hnend & Hfresh)%reply_ok_spec.
  destruct platform_facts as (H0 & H1 & H2 & _).
  pose proof getpagesize_bounds as [Hp1 Hp2].
  pose proof (fresh_disjoint _ _ _ _ _ Hn Ht Hfresh Hmapped) as Hdisj.
  rewrite (realloc_live _ _ _ _ _ Hl Hs). fold n.
  destruct (Z.leb_spec n total) as [| _]; [lia |].
  unfold bind at 1. unfold mmap.
  destruct (Z.eqb_spec base MAP_FAILED) as [He | _].
  { by apply aligned_not_MAP_FAILED in He. }
  rewrite (wrap_small (base + sizeof_header)) by lia.
  rewrite (wrap_small (total - sizeof_header)) by lia.
  set (m1 := map_zero (st_mem st) base (Z.to_nat n)).
  assert (L1 : ∀ i, m1 !! i =
                 if decide (base ≤ i < base + n) then Some 0
                 else st_mem st !! i).
  { intros i. unfold m1. rewrite lookup_map_zero, Z2Nat.id by lia. done. }
  (* memcpy *)
  unfold bind at 1. unfold memcpy. cbn [st_mem st_trace].
  replace ((0 <? total - sizeof_header)
           && (base + sizeof_header <? p + (total - sizeof_header))
           && (p <? base + sizeof_header + (total - sizeof_header)))
    with false; cycle 1.
  { symmetry. rewrite !andb_false_iff, !Z.ltb_ge. lia. }
  destruct (read_bytes_mapped m1 p (Z.to_nat (total - sizeof_header)))
    as [bs Hbs].
  { apply all_mapped_spec. intros i Hi. rewrite L1.
    case_decide; [by eexists |]. apply Hmapped. lia. }
  rewrite Hbs. apply read_bytes_spec in Hbs as [Hlen Hbs].
  destruct (write_bytes_mapped m1 (base + sizeof_header) bs) as [m2 Hm2].
  { apply all_mapped_spec. intros i Hi. rewrite L1.
    case_decide; [by eexists | lia]. }
  rewrite Hm2.
  assert (L2 : ∀ i, m2 !! i =
                 if decide (base + sizeof_header ≤ i < base + total)
                 then st_mem st !! (p + (i - (base + sizeof_header)))
                 else m1 !! i).
  { intros i. rewrite (write_bytes_lookup _ _ _ _ _ Hm2), Hlen.
    repeat case_decide; try done; try lia.
    rewrite <- Hbs by lia. rewrite L1.
    case_decide; [lia |]. f_equal. lia. }
  (* the new header *)
  unfold bind at 1. unfold set_block_size. cbn [st_mem st_trace].
  destruct (store_size_mapped m2 base n) as [m3 Hm3].
  { intros i Hi. rewrite L2, L1. repeat case_decide; try lia. by eexists. }
  rewrite Hm3.
  pose proof (λ i, store_size_other _ _ _ _ i Hm3) as L3.
  (* the old block is released *)
  set (tr := st_trace st ++ [Mmap n base]).
  assert (Hold : ∀ i, p - sizeof_header ≤ i < p - sizeof_header + total →
                      m3 !! i = st_mem st !! i).
  { intros i Hi. rewrite L3, L2, L1 by lia.
    repeat case_decide; done || lia. }
  assert (Hl3 : live (mkState m3 tr) p total).
  { apply live_spec. cbn [st_mem]. repeat split; try done.
    - rewrite <- Hload. apply load_size_ext. intros i Hi. apply Hold. lia.
    - intros i Hi. rewrite Hold by done. by apply Hmapped. }
  unfold bind. rewrite (free_live _ _ _ Hl3). cbn [st_mem st_trace].
  unfold ret, tr. rewrite <- app_assoc. simpl.
  eexists. split; [reflexivity |].
  assert (L4 : ∀ i, unmap m3 (p - sizeof_header) (Z.to_nat total) !! i =
                 if decide (p - sizeof_header ≤ i < p - sizeof_header + total)
                 then None else m3 !! i).
  { intros i. rewrite lookup_unmap, Z2Nat.id by lia. done. }
  split_and!.
  - lia.
  - rewrite <- (load_store_size _ _ _ _ Hnr Hm3).
    apply load_size_ext. intros i Hi. rewrite L4.
    case_decide; [lia | done].
  - intros j Hj. rewrite L4, L3, L2 by lia.
    repeat case_decide; try lia. f_equal. lia.
  - intros i Hi. rewrite L4, L3, L2, L1 by lia.
    repeat case_decide; done || lia.
  - intros i Hi. rewrite L4. case_decide; [lia |].
    rewrite (store_size_dom _ _ _ _ _ Hm3), L2, L1.
    destruct (decide (base + sizeof_header ≤ i < base + total));
      [apply Hmapped; lia |].
    rewrite decide_True by lia. by eexists.
  - intros i Hi. rewrite L4. case_decide; [done | lia].
  - intros i Hi1 Hi2. rewrite L4, L3, L2, L1 by lia.
    repeat case_decide; done || lia.
Qed.

(** ** [calloc] *)

Lemma calloc_null reply count size st st' :
  maxlloc reply (wrap (count * size)) st = Ok NULL st' →
  calloc reply count size st = Ok NULL st'.
Proof. intros H. unfold calloc, bind. by rewrite H. Qed.

(** What a granted [calloc] leaves behind, if the [memset] does not fault. *)
Lemma calloc_granted st count size base p st' :
  wrap (count * size) ≠ 0 →
  reply_ok st (_maxlloc_round_up_to_page_size (wrap (count * size)))
           (Some base) →
  calloc (Some base) count size st = Ok p st' →
  p = base + sizeof_header ∧
  live st' p (_maxlloc_round_up_to_page_size (wrap (count * size))) ∧
  st_trace st' =
    st_trace st ++
      [Mmap (_maxlloc_round_up_to_page_size (wrap (count * size))) base] ∧
  (∀ i, p ≤ i < base + _maxlloc_round_up_to_page_size (wrap (count * size)) →
        st_mem st' !! i = Some 0) ∧
  (∀ i, p ≤ i < p + wrap (count * size) → st_mem st' !! i = Some 0).
Proof.
  intros Ht Hr.
  pose proof (wrap_range (count * size)) as Htr.
  set (total := wrap (count * size)) in *.
  pose proof (round_up_aligned total) as Hna.
  pose proof (round_up_range total) as Hnr.
  destruct (maxlloc_granted _ _ _ Ht Hr) as (m1 & Hm1 & Hrun).
  set (n := _maxlloc_round_up_to_page_size total) in *.
  destruct (new_block _ _ _ _ (st_trace st ++ [Mmap n base]) Hr Hna
              (proj2 Hnr) Hm1) as (Hl1 & Hz1 & _).
  pose proof Hr as (Hn & Hnb & _)%reply_ok_spec.
  destruct platform_facts as (H0 & H1 & H2 & _).
  unfold calloc, bind. fold total. rewrite Hrun. unfold NULL.
  destruct (Z.eqb_spec (base + sizeof_header) 0) as [| _]; [lia |].
  cbn [negb]. unfold memset. cbn [st_mem st_trace].
  change (0 mod 256) with 0.
  destruct (write_bytes m1 _ _) as [m2 |] eqn:Hm2; [| done].
  unfold ret. intros [= <- <-]. cbn [st_mem st_trace].
  assert (L2 : ∀ i, m2 !! i =
                 if decide (base + sizeof_header ≤ i
                            < base + sizeof_header + total)
                 then Some 0 else m1 !! i).
  { intros i. rewrite (write_bytes_lookup _ _ _ _ _ Hm2), length_replicate.
    rewrite Z2Nat.id by lia. case_decide; [| done].
    apply lookup_replicate_2. lia. }
  split_and!; try done.
  - apply live_spec in Hl1 as (? & ? & ? & ? & ? & Hload & Hmapped).
    cbn [st_mem] in *. apply live_spec. cbn [st_mem].
    split_and!; try done.
    + rewrite <- Hload. apply load_size_ext. intros i Hi.
      rewrite L2. case_decide; [lia | done].
    + intros i Hi. rewrite (write_bytes_dom _ _ _ _ _ Hm2). by apply Hmapped.
  - intros i Hi. rewrite L2. case_decide; [done |]. apply Hz1. lia.
  - intros i Hi. rewrite L2. case_decide; [done | lia].
Qed.

(** Away from the top of the address space the [memset] stays inside the new
    block, so a granted [calloc] does return. *)
Lemma calloc_completes st count size base :
  wrap (count * size) ≠ 0 →
  wrap (count * size) + sizeof_header + getpagesize - 1 < size_modulus →
  reply_ok st (_maxlloc_round_up_to_page_size (wrap (count * size)))
           (Some base) →
  ∃ st', calloc (Some base) count size st = Ok (base + sizeof_header) st'.
Proof.
  intros Ht Hno Hr.
  pose proof (wrap_range (count * size)) as Htr.
  set (total := wrap (count * size)) in *.
  pose proof (round_up_aligned total) as Hna.
  pose proof (round_up_range total) as Hnr.
  pose proof (round_up_ge total (proj1 Htr) Hno) as Hge.
  destruct (maxlloc_granted _ _ _ Ht Hr) as (m1 & Hm1 & Hrun).
  set (n := _maxlloc_round_up_to_page_size total) in *.
  destruct (new_block _ _ _ _ (st_trace st ++ [Mmap n base]) Hr Hna
              (proj2 Hnr) Hm1) as (Hl1 & _ & _).
  apply live_spec in Hl1 as (_ & _ & _ & _ & _ & _ & Hmapped).
  cbn [st_mem] in Hmapped.
  pose proof Hr as (Hn & Hnb & _)%reply_ok_spec.
  destruct platform_facts as (H0 & H1 & H2 & _).
  unfold calloc, bind. fold total. rewrite Hrun. unfold NULL.
  destruct (Z.eqb_spec (base + sizeof_header) 0) as [| _]; [lia |].
  cbn [negb]. unfold memset. cbn [st_mem st_trace].
  change (0 mod 256) with 0.
  destruct (write_bytes_mapped m1 (base + sizeof_header)
              (replicate (Z.to_nat total) 0)) as [m2 ->].
  { rewrite length_replicate. apply all_mapped_spec. intros i Hi.
    apply Hmapped. lia. }
  by eexists.
Qed.

(** ** Shared facts for the entry points *)

Lemma block_live st base n :
  0 < n → 0 ≤ base → base mod getpagesize = 0 → n mod getpagesize = 0 →
  base + n ≤ size_modulus →
  load_size (st_mem st) base = Some n →
  (∀ i, base ≤ i < base + n → is_Some (st_mem st !! i)) →
  live st (base + sizeof_header) n.
Proof.
  intros. apply live_spec.
  replace (base + sizeof_header - sizeof_header) with base by lia.
  done.
Qed.

(** A payload pointer sits [sizeof_header] past a page boundary. *)
Lemma live_alignment st p total :
  live st p total →
  (p - sizeof_header) mod getpagesize = 0 ∧
  p mod getpagesize = sizeof_header mod getpagesize.
Proof.
  intros (_ & Hba & _)%live_spec. split; [done |].
  pose proof getpagesize_bounds as [Hp1 _].
  replace p with ((p - sizeof_header) + sizeof_header) at 1 by lia.
  rewrite Z.add_mod, Hba by lia. simpl. apply Z.mod_mod. lia.
Qed.

Lemma maxlloc_trace reply size st p st' :
  size ≠ 0 → maxlloc reply size st = Ok p st' →
  ∃ r, st_trace st' =
       st_trace st ++ [Mmap (_maxlloc_round_up_to_page_size size) r].
Proof.
  intros Hs. unfold maxlloc. destruct (Z.eqb_spec size 0); [done |].
  unfold bind, mmap. destruct reply as [base |].
  - destruct (base =? MAP_FAILED).
    + intros [= <- <-]. by eexists.
    + unfold set_block_size. cbn [st_mem st_trace].
      destruct (store_size _ _ _); [| done]. intros [= <- <-]. by eexists.
  - rewrite Z.eqb_refl. intros [= <- <-]. by eexists.
Qed.

(** Every non-null result of [maxlloc] is the payload pointer of a live
    block whose size is the rounded request. *)
Lemma maxlloc_live st reply size p st' :
  reply_ok st (_maxlloc_round_up_to_page_size size) reply →
  maxlloc reply size st = Ok p st' → p ≠ NULL →
  ∃ base, reply = Some base ∧ p = base + sizeof_header ∧
          live st' p (_maxlloc_round_up_to_page_size size).
Proof.
  intros Hr Hrun Hp.
  destruct (decide (size = 0)) as [-> | Hs].
  { rewrite maxlloc_zero in Hrun. by injection Hrun as <- <-. }
  destruct reply as [base |].
  - destruct (maxlloc_granted _ _ _ Hs Hr) as (m' & Hm' & Hrun').
    rewrite Hrun' in Hrun. injection Hrun as <- <-.
    exists base. split_and!; try done.
    eapply new_block; [exact Hr | apply round_up_aligned | | exact Hm'].
    apply round_up_range.
  - rewrite (maxlloc_refused _ _ Hs) in Hrun. by injection Hrun as <- <-.
Qed.

Lemma round_up_least s :
  0 ≤ s → s + sizeof_header + getpagesize - 1 < size_modulus →
  least_page_multiple_ge (s + sizeof_header)
    (_maxlloc_round_up_to_page_size s).
Proof.
  intros Hs Hlt. rewrite round_up_no_wrap by done.
  replace (s + sizeof_header + getpagesize - 1)
    with ((s + sizeof_header) + getpagesize - 1) by lia.
  apply round_up_formula_least.
Qed.

(** Past that bound no [size_t] is large enough: the rounder's answer is not
    the smallest page multiple above the request plus the header. *)
Lemma round_up_wraps s :
  size_modulus ≤ s + sizeof_header + getpagesize - 1 →
  ¬ least_page_multiple_ge (s + sizeof_header)
      (_maxlloc_round_up_to_page_size s).
Proof.
  intros Hs ([q Hq] & Hge & _).
  pose proof (round_up_range s) as [_ Hlt]. rewrite Hq in *.
  pose proof getpagesize_bounds as [Hp1 _].
  rewrite size_modulus_pages in *.
  set (c := 2 ^ (size_bits - Z.log2 getpagesize)) in *.
  assert (q < c) by nia. nia.
Qed.

(** ** The allocator's contract *)

(** C7: [maxlloc] always returns (the mapping reply being one the operating
    system can give), and its result is [NULL] exactly when the requested size
    is 0 or the operating system refused the mapping. A request for 0 bytes
    leaves the state as it was, without any system call; whenever the result
    is [NULL] no byte of memory has been mapped or changed, and a refusal
    shows in the trace as the one failed [mmap]. In every other case the
    result is the payload pointer of the block just mapped: it lies one
    header past the base the operating system chose, the block is live with
    the rounded size in its header, and the only system call made is the
    [mmap] of that size. *)
Theorem maxlloc_null_iff st reply size :
  reply_ok st (_maxlloc_round_up_to_page_size size) reply →
  ∃ p st',
    maxlloc reply size st = Ok p st' ∧
    (p = NULL ↔ size = 0 ∨ reply = None) ∧
    (size = 0 → st' = st) ∧
    (p = NULL → st_mem st' = st_mem st) ∧
    (size ≠ 0 → reply = None →
     st_trace st' =
       st_trace st ++
         [Mmap (_maxlloc_round_up_to_page_size size) MAP_FAILED]) ∧
    (p ≠ NULL →
     ∃ base,
       reply = Some base ∧ p = base + sizeof_header ∧
       live st' p (_maxlloc_round_up_to_page_size size) ∧
       st_trace st' =
         st_trace st ++ [Mmap (_maxlloc_round_up_to_page_size size) base]).
Proof.
  intros Hr. destruct (decide (size = 0)) as [-> | Hs].
  { exists NULL, st. rewrite maxlloc_zero. split_and!; try done.
    split; auto. }
  destruct reply as [base |].
  - destruct (maxlloc_granted _ _ _ Hs Hr) as (m' & Hm' & Hrun).
    pose proof (new_block _ _ _ _
                  (st_trace st ++
                     [Mmap (_maxlloc_round_up_to_page_size size) base])
                  Hr (round_up_aligned size) (proj2 (round_up_range size))
                  Hm') as (Hl & _).
    apply reply_ok_spec in Hr as (_ & Hb & _).
    destruct platform_facts as (H0 & H1 & _).
    eexists _, _. split; [exact Hrun |]. unfold NULL.
    split_and!; [| done | lia | done |].
    + split; [lia |]. intros [? | ?]; done.
    + intros _. by exists base.
  - eexists _, _. split; [by apply maxlloc_refused |].
    split_and!; try done. split; auto.
Qed.

(** C8: [free(NULL)] returns at once and changes nothing. For the payload
    pointer [p] of a live block, [free] reads the block's total size from the
    header at [p - sizeof(MaxllocHeader)] and makes exactly one system call,
    [munmap] of that many bytes at the header address: the block's addresses
    leave the address space and every other byte is as before. *)
Theorem free_unmaps_block :
  (∀ st, free NULL st = Ok tt st) ∧
  (∀ st p total,
     live st p total →
     get_block_size (wrap (p - sizeof_header)) st = Ok total st ∧
     ∃ st',
       free p st = Ok tt st' ∧
       st_trace st' = st_trace st ++ [Munmap (p - sizeof_header) total] ∧
       ∀ i, st_mem st' !! i =
            if decide (p - sizeof_header ≤ i < p - sizeof_header + total)
            then None else st_mem st !! i).
Proof.
  split; [apply free_null |]. intros st p total Hl.
  pose proof (live_bounds _ _ _ Hl) as (_ & _ & _ & _ & Hw).
  pose proof Hl as (_ & _ & Ht & _ & _ & Hload & _)%live_spec.
  split.
  - unfold get_block_size. by rewrite Hw, Hload.
  - eexists. split; [by apply free_live |]. cbn [st_mem st_trace].
    split; [done |]. intros i. rewrite lookup_unmap, Z2Nat.id by lia. done.
Qed.

(** C9: [realloc(p, 0)] is [free(p)] followed by returning [NULL], for every
    pointer and every state: same system calls, same memory, and a result that
    is [NULL] whenever there is one. *)
Theorem realloc_zero_is_free reply p st :
  realloc reply p 0 st = release_then_null p st ∧
  match realloc reply p 0 st with
  | Ok q st' => q = NULL ∧ free p st = Ok tt st'
  | Fault => free p st = Fault
  end.
Proof.
  split; [apply realloc_zero |].
  rewrite realloc_zero. unfold release_then_null.
  destruct (free p st) as [| [] st']; done.
Qed.

(** C4: on a live block, a nonzero request whose rounded size fits in the
    block's stored size returns the same pointer and leaves the whole state
    untouched: no byte changes and no system call is made. *)
Theorem realloc_in_place st reply p total size :
  live st p total → 0 < size →
  _maxlloc_round_up_to_page_size size ≤ total →
  realloc reply p size st = Ok p st.
Proof. intros Hl Hs Hle. apply (realloc_fits _ _ _ total); [done | lia | done]. Qed.

(** C2: on a live block, when the rounded request exceeds the stored size and
    the operating system refuses the mapping, [realloc] returns [NULL]; the
    memory is exactly as before, the block is still live with the same stored
    size, and the only system call made is the refused [mmap]. *)
Theorem realloc_failure_keeps_block st p total size :
  live st p total →
  total < _maxlloc_round_up_to_page_size size →
  ∃ st',
    realloc None p size st = Ok NULL st' ∧
    st_mem st' = st_mem st ∧
    live st' p total ∧
    st_trace st' =
      st_trace st ++ [Mmap (_maxlloc_round_up_to_page_size size) MAP_FAILED].
Proof.
  intros Hl Hlt. eexists. split; [by eapply realloc_refused |].
  split_and!; done.
Qed.

(** C5: on a live block, when the rounded request exceeds the stored size and
    the operating system grants the mapping at [base], [realloc] returns
    [base + sizeof(MaxllocHeader)], a non-null pointer other than [p]. The
    new payload starts with the [total - sizeof(MaxllocHeader)] bytes of the
    old payload, hence with its first [min (old payload size) size] bytes, and
    is zero after them, as mapped; the new header carries the new total, the
    new block is live, and the old block has been unmapped by the one [munmap]
    that follows the one [mmap]. *)
Theorem realloc_moves_block st p total size base :
  live st p total →
  total < _maxlloc_round_up_to_page_size size →
  reply_ok st (_maxlloc_round_up_to_page_size size) (Some base) →
  ∃ st',
    realloc (Some base) p size st = Ok (base + sizeof_header) st' ∧
    base + sizeof_header ≠ p ∧ base + sizeof_header ≠ NULL ∧
    (∀ j, 0 ≤ j < total - sizeof_header →
          st_mem st' !! (base + sizeof_header + j) = st_mem st !! (p + j)) ∧
    (∀ j, 0 ≤ j < Z.min (total - sizeof_header) size →
          st_mem st' !! (base + sizeof_header + j) = st_mem st !! (p + j)) ∧
    (∀ i, base + total ≤ i < base + _maxlloc_round_up_to_page_size size →
          st_mem st' !! i = Some 0) ∧
    load_size (st_mem st') base =
      Some (_maxlloc_round_up_to_page_size size) ∧
    live st' (base + sizeof_header) (_maxlloc_round_up_to_page_size size) ∧
    (∀ i, p - sizeof_header ≤ i < p - sizeof_header + total →
          st_mem st' !! i = None) ∧
    st_trace st' =
      st_trace st ++ [Mmap (_maxlloc_round_up_to_page_size size) base;
                      Munmap (p - sizeof_header) total].
Proof.
  intros Hl Hlt Hr.
  destruct (realloc_moved _ _ _ _ _ Hl Hlt Hr)
    as (m' & Hrun & Hne & Hload & Hcopy & Hzero & Hmapped & Hgone & _).
  pose proof Hr as (Hn & Hb & Hba & Hend & _)%reply_ok_spec.
  destruct platform_facts as (H0 & H1 & _).
  eexists. split; [exact Hrun |]. cbn [st_mem st_trace]. unfold NULL.
  split_and!; try done.
  - lia.
  - intros j Hj. apply Hcopy. lia.
  - apply block_live; try done. apply round_up_aligned.
Qed.

(** C6: for [count] and [size] whose product is positive and fits a [size_t],
    a [calloc] that returns a non-null pointer returns the payload pointer of a
    live block in which every payload byte, and so each of the first
    [count * size] bytes, is zero; a [NULL] from [maxlloc] is returned as it
    is, with the state [maxlloc] left. When moreover rounding the product
    does not wrap, a granted mapping always makes [calloc] return. *)
Theorem calloc_zeroed st reply count size :
  0 < count * size < size_modulus →
  reply_ok st (_maxlloc_round_up_to_page_size (count * size)) reply →
  (∀ p st',
     calloc reply count size st = Ok p st' → p ≠ NULL →
     live st' p (_maxlloc_round_up_to_page_size (count * size)) ∧
     (∀ i, p ≤ i < p - sizeof_header
                   + _maxlloc_round_up_to_page_size (count * size) →
           st_mem st' !! i = Some 0) ∧
     (∀ i, p ≤ i < p + count * size → st_mem st' !! i = Some 0)) ∧
  (∀ st',
     maxlloc reply (count * size) st = Ok NULL st' →
     calloc reply count size st = Ok NULL st') ∧
  (∀ base,
     reply = Some base →
     count * size + sizeof_header + getpagesize - 1 < size_modulus →
     ∃ st', calloc reply count size st = Ok (base + sizeof_header) st').
Proof.
  intros Hprod Hr.
  assert (Hw : wrap (count * size) = count * size) by (apply wrap_small; lia).
  assert (Hnz : wrap (count * size) ≠ 0) by lia.
  split_and!.
  - intros p st' Hrun Hp. destruct reply as [base |].
    + rewrite <- Hw in Hr.
      destruct (calloc_granted _ _ _ _ _ _ Hnz Hr Hrun)
        as (-> & Hl & _ & Hz & Hf).
      rewrite Hw in *. split_and!; try done.
      intros i Hi. apply Hz. lia.
    + exfalso. apply Hp.
      pose proof (maxlloc_refused _ st Hnz) as Hm.
      apply calloc_null in Hm. rewrite Hm in Hrun.
      by injection Hrun as <- _.
  - intros st' Hm. apply calloc_null. by rewrite Hw.
  - intros base -> Hno. rewrite <- Hw in Hr, Hno.
    by apply calloc_completes.
Qed.

Lemma live_header_past_page st p total :
  live st p total → header_past_page st p.
Proof.
  intros Hl. split; [by exists total |]. by eapply live_alignment.
Qed.

Lemma calloc_live st reply count size p st' :
  reply_ok st (_maxlloc_round_up_to_page_size (wrap (count * size))) reply →
  calloc reply count size st = Ok p st' → p ≠ NULL →
  live st' p (_maxlloc_round_up_to_page_size (wrap (count * size))).
Proof.
  intros Hr Hrun Hp.
  destruct (decide (wrap (count * size) = 0)) as [Hz | Hnz].
  { exfalso. apply Hp.
    pose proof (maxlloc_zero reply st) as Hm. rewrite <- Hz in Hm.
    apply calloc_null in Hm. rewrite Hm in Hrun. by injection Hrun as <- _. }
  destruct reply as [base |].
  - by destruct (calloc_granted _ _ _ _ _ _ Hnz Hr Hrun) as (_ & Hl & _).
  - exfalso. apply Hp.
    pose proof (maxlloc_refused _ st Hnz) as Hm.
    apply calloc_null in Hm. rewrite Hm in Hrun. by injection Hrun as <- _.
Qed.

Lemma realloc_result_live st reply ptr total size p st' :
  ptr = NULL ∨ live st ptr total →
  reply_ok st (_maxlloc_round_up_to_page_size size) reply →
  realloc reply ptr size st = Ok p st' → p ≠ NULL →
  ∃ total', live st' p total'.
Proof.
  intros Hptr Hr Hrun Hp.
  destruct (decide (size = 0)) as [-> | Hs].
  { exfalso. apply Hp. rewrite realloc_zero in Hrun.
    unfold release_then_null in Hrun.
    destruct (free ptr st); [done |]. by injection Hrun as <- _. }
  destruct Hptr as [-> | Hl].
  { rewrite realloc_null in Hrun by done.
    destruct (maxlloc_live _ _ _ _ _ Hr Hrun Hp) as (_ & _ & _ & Hl).
    by eexists. }
  destruct (Z_le_gt_dec (_maxlloc_round_up_to_page_size size) total)
    as [Hle | Hgt].
  { rewrite (realloc_fits _ _ _ _ _ Hl Hs Hle) in Hrun.
    injection Hrun as <- <-. by eexists. }
  assert (Hlt : total < _maxlloc_round_up_to_page_size size) by lia.
  destruct reply as [base |].
  - destruct (realloc_moved _ _ _ _ _ Hl Hlt Hr)
      as (m' & Hrun' & _ & Hload & _ & _ & Hmapped & _).
    rewrite Hrun' in Hrun. injection Hrun as <- <-.
    apply reply_ok_spec in Hr as (? & ? & ? & ? & _).
    eexists. apply block_live; try done. apply round_up_aligned.
  - exfalso. apply Hp.
    rewrite (realloc_refused _ _ _ _ Hl Hlt) in Hrun.
    by injection Hrun as <- _.
Qed.

(** C10: every non-null pointer that [maxlloc], [calloc] or [realloc] returns
    is the payload pointer of a live block: it lies exactly
    [sizeof(MaxllocHeader)] bytes past the page-aligned base of its mapping,
    so all pointers handed out are congruent to [sizeof(MaxllocHeader)]
    modulo the page size. *)
Theorem returned_pointer_header_past_page :
  (∀ st reply size p st',
     reply_ok st (_maxlloc_round_up_to_page_size size) reply →
     maxlloc reply size st = Ok p st' → p ≠ NULL →
     header_past_page st' p) ∧
  (∀ st reply count size p st',
     reply_ok st (_maxlloc_round_up_to_page_size (wrap (count * size)))
              reply →
     calloc reply count size st = Ok p st' → p ≠ NULL →
     header_past_page st' p) ∧
  (∀ st reply ptr total size p st',
     ptr = NULL ∨ live st ptr total →
     reply_ok st (_maxlloc_round_up_to_page_size size) reply →
     realloc reply ptr size st = Ok p st' → p ≠ NULL →
     header_past_page st' p).
Proof.
  split_and!.
  - intros st reply size p st' Hr Hrun Hp.
    destruct (maxlloc_live _ _ _ _ _ Hr Hrun Hp) as (_ & _ & _ & Hl).
    by eapply live_header_past_page.
  - intros st reply count size p st' Hr Hrun Hp.
    eapply live_header_past_page, calloc_live; done.
  - intros st reply ptr total size p st' Hptr Hr Hrun Hp.
    destruct (realloc_result_live _ _ _ _ _ _ _ Hptr Hr Hrun Hp) as [t Hl].
    by eapply live_header_past_page.
Qed.

(** C3: [calloc] multiplies without a check. With [count = size = SIZE_MAX]
    the true product exceeds [SIZE_MAX], the wrapped product is 1, and
    whenever the operating system grants the one-page mapping [calloc]
    returns a non-null pointer to a live block whose total size, one page, is
    smaller than the true product. *)
Theorem calloc_overflow_undersized :
  ∃ count size,
    0 ≤ count < size_modulus ∧ 0 ≤ size < size_modulus ∧
    size_modulus ≤ count * size ∧
    0 < wrap (count * size) < getpagesize ∧
    ∀ st base,
      reply_ok st (_maxlloc_round_up_to_page_size (wrap (count * size)))
               (Some base) →
      ∃ st',
        calloc (Some base) count size st = Ok (base + sizeof_header) st' ∧
        base + sizeof_header ≠ NULL ∧
        live st' (base + sizeof_header)
             (_maxlloc_round_up_to_page_size (wrap (count * size))) ∧
        st_trace st' =
          st_trace st ++
            [Mmap (_maxlloc_round_up_to_page_size (wrap (count * size)))
                  base] ∧
        _maxlloc_round_up_to_page_size (wrap (count * size)) < count * size.
Proof.
  destruct platform_facts as (H0 & H1 & H2 & _).
  pose proof getpagesize_bounds as [Hp1 Hp2].
  exists (size_modulus - 1), (size_modulus - 1).
  assert (Hw : wrap ((size_modulus - 1) * (size_modulus - 1)) = 1).
  { unfold wrap.
    replace ((size_modulus - 1) * (size_modulus - 1))
      with (1 + (size_modulus - 2) * size_modulus) by lia.
    rewrite Z_mod_plus_full. apply Z.mod_small. lia. }
  rewrite Hw.
  assert (Hn : _maxlloc_round_up_to_page_size 1 = getpagesize).
  { rewrite round_up_no_wrap by lia.
    replace (1 + sizeof_header + getpagesize - 1)
      with (1 * getpagesize + sizeof_header) by lia.
    rewrite Z.div_add_l, Z.div_small by lia. lia. }
  rewrite Hn. split_and!; try lia; try nia.
  intros st base Hr.
  assert (Hnz : wrap ((size_modulus - 1) * (size_modulus - 1)) ≠ 0) by lia.
  destruct (calloc_completes st (size_modulus - 1) (size_modulus - 1) base)
    as [st' Hrun]; [done | rewrite Hw; lia | by rewrite Hw, Hn |].
  pose proof Hrun as Hrun'.
  apply calloc_granted in Hrun' as (_ & Hl & Htr & _);
    [| done | by rewrite Hw, Hn].
  rewrite Hw, Hn in Hl, Htr.
  apply reply_ok_spec in Hr as (_ & Hb & _).
  exists st'. unfold NULL. split_and!; try done; try lia. nia.
Qed.

(** * Further properties of the allocator *)

(** ** The rounder at the top of the [size_t] range *)

Lemma wrap_once x :
  size_modulus ≤ x < 2 * size_modulus → wrap x = x - size_modulus.
Proof.
  intros Hx. unfold wrap. symmetry.
  apply (Z.mod_unique _ _ 1); lia.
Qed.

Lemma round_up_top_page s :
  size_modulus - sizeof_header < s < size_modulus →
  _maxlloc_round_up_to_page_size s = getpagesize.
Proof.
  intros Hs.
  destruct platform_facts as (H0 & H1 & H2 & _).
  pose proof getpagesize_bounds as [Hp1 Hp2].
  rewrite round_up_unfold.
  rewrite (wrap_once (s + sizeof_header)) by lia.
  rewrite (wrap_small (getpagesize - 1)) by lia.
  rewrite wrap_small by lia.
  replace (s + sizeof_header - size_modulus + (getpagesize - 1))
    with (1 * getpagesize + (s + sizeof_header - size_modulus - 1)) by lia.
  rewrite Z.div_add_l, Z.div_small by lia. lia.
Qed.

Lemma round_up_top_zero s :
  size_modulus - getpagesize - sizeof_header < s ≤
    size_modulus - sizeof_header →
  _maxlloc_round_up_to_page_size s = 0.
Proof.
  intros Hs.
  destruct platform_facts as (H0 & H1 & H2 & _).
  pose proof getpagesize_bounds as [Hp1 Hp2].
  rewrite round_up_unfold.
  rewrite (wrap_small (getpagesize - 1)) by lia.
  destruct (decide (s + sizeof_header = size_modulus)) as [He | Hne].
  - rewrite He. unfold wrap at 2. rewrite Z.mod_same by lia.
    rewrite wrap_small by lia. rewrite Z.div_small by lia. lia.
  - rewrite (wrap_small (s + sizeof_header)) by lia.
    rewrite wrap_once by lia. rewrite Z.div_small by lia. lia.
Qed.

Lemma round_up_le_fits s n :
  0 ≤ s → s + sizeof_header + getpagesize - 1 < size_modulus →
  n mod getpagesize = 0 → s + sizeof_header ≤ n →
  _maxlloc_round_up_to_page_size s ≤ n.
Proof.
  intros Hs Hno Hn Hfit.
  pose proof getpagesize_bounds as [Hp1 _].
  destruct (round_up_least s Hs Hno) as (_ & _ & Hleast).
  apply Hleast; [| done]. apply Z.mod_divide; [lia | done].
Qed.

(** X1: whatever the request, even one that makes the additions wrap, the
    rounder answers a [size_t] that is a whole number of pages. *)
Theorem round_up_always_page_multiple s :
  0 ≤ _maxlloc_round_up_to_page_size s < size_modulus ∧
  (getpagesize | _maxlloc_round_up_to_page_size s).
Proof.
  split; [apply round_up_range |].
  pose proof getpagesize_bounds as [Hp1 _].
  apply Z.mod_divide; [lia | apply round_up_aligned].
Qed.

(** X2: without wrap-around, the rounded size of a request is at most a
    page-multiple [n] exactly when the request plus the header is. *)
Theorem round_up_fits_iff s n :
  0 ≤ s → s + sizeof_header + getpagesize - 1 < size_modulus →
  n mod getpagesize = 0 →
  _maxlloc_round_up_to_page_size s ≤ n ↔ s + sizeof_header ≤ n.
Proof.
  intros Hs Hno Hn. split.
  - pose proof (round_up_ge s Hs Hno). lia.
  - by apply round_up_le_fits.
Qed.

(** X3: in the last page-and-a-header of the [size_t] range the additions
    wrap: the rounder answers one page for the requests within a header of
    [SIZE_MAX] and 0 for the others, in both cases less than the request. *)
Theorem round_up_top_of_range s :
  size_modulus - getpagesize - sizeof_header < s < size_modulus →
  _maxlloc_round_up_to_page_size s =
    (if decide (size_modulus - sizeof_header < s) then getpagesize else 0) ∧
  _maxlloc_round_up_to_page_size s < s.
Proof.
  intros Hs.
  destruct platform_facts as (H0 & H1 & H2 & _).
  pose proof getpagesize_bounds as [Hp1 Hp2].
  case_decide.
  - rewrite round_up_top_page by lia. lia.
  - rewrite round_up_top_zero by lia. lia.
Qed.

(** ** [maxlloc] at its bounds and in composition *)

(** X4: for a request within a header of [SIZE_MAX], a granted [maxlloc]
    succeeds with a block of a single page, whose payload is smaller than
    the request. *)
Theorem maxlloc_top_undersized s st base :
  size_modulus - sizeof_header < s < size_modulus →
  reply_ok st (_maxlloc_round_up_to_page_size s) (Some base) →
  ∃ st',
    maxlloc (Some base) s st = Ok (base + sizeof_header) st' ∧
    base + sizeof_header ≠ NULL ∧
    live st' (base + sizeof_header) getpagesize ∧
    st_trace st' = st_trace st ++ [Mmap getpagesize base] ∧
    getpagesize - sizeof_header < s.
Proof.
  intros Hs Hr.
  destruct platform_facts as (H0 & H1 & H2 & _).
  pose proof getpagesize_bounds as [Hp1 Hp2].
  assert (Hnz : s ≠ 0) by lia.
  destruct (maxlloc_granted _ _ _ Hnz Hr) as (m' & Hm' & Hrun).
  pose proof (new_block _ _ _ _
                (st_trace st ++ [Mmap (_maxlloc_round_up_to_page_size s) base])
                Hr (round_up_aligned s) (proj2 (round_up_range s)) Hm')
    as (Hl & _).
  apply reply_ok_spec in Hr as (_ & Hb & _).
  rewrite round_up_top_page in * by done.
  eexists. split; [exact Hrun |]. unfold NULL. cbn [st_trace].
  split_and!; try done; lia.
Qed.

(** X5: for the other requests of the last page-and-a-header of the range
    the rounded size is 0; the operating system cannot grant an empty
    mapping, so [maxlloc] asks for 0 bytes and returns [NULL], memory
    untouched. *)
Theorem maxlloc_top_refused s st reply :
  size_modulus - getpagesize - sizeof_header < s ≤
    size_modulus - sizeof_header →
  reply_ok st (_maxlloc_round_up_to_page_size s) reply →
  maxlloc reply s st =
  Ok NULL (mkState (st_mem st) (st_trace st ++ [Mmap 0 MAP_FAILED])).
Proof.
  intros Hs Hr.
  destruct platform_facts as (H0 & H1 & H2 & _).
  pose proof getpagesize_bounds as [Hp1 Hp2].
  assert (Hnz : s ≠ 0) by lia.
  destruct reply as [base |].
  - apply reply_ok_spec in Hr as (Hlen & _).
    rewrite round_up_top_zero in Hlen by done. lia.
  - rewrite (maxlloc_refused _ _ Hnz), round_up_top_zero by done. done.
Qed.

(** X6: without wrap-around, a granted [maxlloc(s)] returns a payload whose
    [s] bytes are mapped and read as zero; a [memset] of them with any [c]
    succeeds, every byte then reads as [c] converted to [unsigned char], and
    the block is still live with its header intact. *)
Theorem maxlloc_payload_usable s st base :
  0 < s → s + sizeof_header + getpagesize - 1 < size_modulus →
  reply_ok st (_maxlloc_round_up_to_page_size s) (Some base) →
  ∃ st1,
    maxlloc (Some base) s st = Ok (base + sizeof_header) st1 ∧
    (∀ i, base + sizeof_header ≤ i < base + sizeof_header + s →
          st_mem st1 !! i = Some 0) ∧
    ∀ c, ∃ st2,
      memset (base + sizeof_header) c s st1 = Ok tt st2 ∧
      (∀ i, base + sizeof_header ≤ i < base + sizeof_header + s →
            st_mem st2 !! i = Some (c mod 256)) ∧
      live st2 (base + sizeof_header) (_maxlloc_round_up_to_page_size s).
Proof.
  intros Hs Hno Hr.
  destruct platform_facts as (H0 & H1 & H2 & _).
  assert (Hnz : s ≠ 0) by lia.
  pose proof (round_up_ge s ltac:(lia) Hno) as Hge.
  destruct (maxlloc_granted _ _ _ Hnz Hr) as (m1 & Hm1 & Hrun).
  set (n := _maxlloc_round_up_to_page_size s) in *.
  set (tr := st_trace st ++ [Mmap n base]) in *.
  destruct (new_block _ _ _ _ tr Hr (round_up_aligned s)
              (proj2 (round_up_range s)) Hm1) as (Hl & Hz & _).
  eexists. split; [exact Hrun |]. cbn [st_mem]. split.
  { intros i Hi. apply Hz. lia. }
  intros c. unfold memset. cbn [st_mem st_trace].
  pose proof Hl as (? & ? & ? & ? & ? & Hload & Hmapped)%live_spec.
  cbn [st_mem] in Hload, Hmapped.
  replace (base + sizeof_header - sizeof_header) with base in * by lia.
  destruct (write_bytes_mapped m1 (base + sizeof_header)
              (replicate (Z.to_nat s) (c mod 256))) as [m2 Hm2].
  { rewrite length_replicate. apply all_mapped_spec. intros i Hi.
    apply Hmapped. lia. }
  rewrite Hm2. eexists. split; [reflexivity |]. cbn [st_mem].
  assert (L2 : ∀ i, m2 !! i =
                 if decide (base + sizeof_header ≤ i
                            < base + sizeof_header + s)
                 then Some (c mod 256) else m1 !! i).
  { intros i. rewrite (write_bytes_lookup _ _ _ _ _ Hm2), length_replicate.
    rewrite Z2Nat.id by lia. case_decide; [| done].
    apply lookup_replicate_2. lia. }
  split.
  - intros i Hi. rewrite L2. case_decide; [done | lia].
  - apply block_live; try done; cbn [st_mem].
    + rewrite <- Hload. apply load_size_ext. intros i Hi. rewrite L2.
      case_decide; [lia | done].
    + intros i Hi. rewrite (write_bytes_dom _ _ _ _ _ Hm2). by apply Hmapped.
Qed.

(** A block stays live when none of its bytes change. *)
Lemma live_frame st st' q total :
  live st q total →
  (∀ i, q - sizeof_header ≤ i < q - sizeof_header + total →
        st_mem st' !! i = st_mem st !! i) →
  live st' q total.
Proof.
  intros Hl Hsame.
  pose proof (live_bounds _ _ _ Hl) as (_ & Hht & _).
  destruct platform_facts as (H0 & H1 & _).
  apply live_spec in Hl as (? & ? & ? & ? & ? & Hload & Hmapped).
  apply live_spec. split_and!; try done.
  - rewrite <- Hload. apply load_size_ext. intros i Hi. apply Hsame. lia.
  - intros i Hi. rewrite Hsame by done. by apply Hmapped.
Qed.

(** X7: [maxlloc] leaves what was there alone: every byte that was mapped
    keeps its value, and every block that was live stays live. *)
Theorem maxlloc_frame st reply s p st' :
  reply_ok st (_maxlloc_round_up_to_page_size s) reply →
  maxlloc reply s st = Ok p st' →
  (∀ i, is_Some (st_mem st !! i) → st_mem st' !! i = st_mem st !! i) ∧
  (∀ q total, live st q total → live st' q total).
Proof.
  intros Hr Hrun.
  assert (Hsame : ∀ i, is_Some (st_mem st !! i) →
                       st_mem st' !! i = st_mem st !! i).
  { destruct (decide (s = 0)) as [-> | Hs].
    { rewrite maxlloc_zero in Hrun. by injection Hrun as _ <-. }
    destruct reply as [base |].
    - destruct (maxlloc_granted _ _ _ Hs Hr) as (m' & Hm' & Hrun').
      rewrite Hrun' in Hrun. injection Hrun as _ <-. cbn [st_mem].
      destruct (new_block _ _ _ _ [] Hr (round_up_aligned s)
                  (proj2 (round_up_range s)) Hm') as (_ & _ & Hout).
      apply reply_ok_spec in Hr as (_ & _ & _ & _ & Hfresh).
      intros i [b Hb]. apply Hout. intros Hi.
      rewrite Hfresh in Hb by done. done.
    - rewrite (maxlloc_refused _ _ Hs) in Hrun. by injection Hrun as _ <-. }
  split; [done |]. intros q total Hl.
  apply (live_frame st); [done |]. intros i Hi. apply Hsame.
  apply live_spec in Hl as (_ & _ & _ & _ & _ & _ & Hmapped).
  by apply Hmapped.
Qed.

(** X8: releasing a block right after a granted [maxlloc] gives back exactly
    the memory there was before; the two system calls are the [mmap] and the
    [munmap] of the same region. *)
Theorem maxlloc_free_restores s st base :
  s ≠ 0 →
  reply_ok st (_maxlloc_round_up_to_page_size s) (Some base) →
  ∃ st1 st2,
    maxlloc (Some base) s st = Ok (base + sizeof_header) st1 ∧
    free (base + sizeof_header) st1 = Ok tt st2 ∧
    st_mem st2 = st_mem st ∧
    st_trace st2 =
      st_trace st ++ [Mmap (_maxlloc_round_up_to_page_size s) base;
                      Munmap base (_maxlloc_round_up_to_page_size s)].
Proof.
  intros Hs Hr.
  destruct (maxlloc_granted _ _ _ Hs Hr) as (m1 & Hm1 & Hrun).
  set (n := _maxlloc_round_up_to_page_size s) in *.
  set (tr := st_trace st ++ [Mmap n base]) in *.
  destruct (new_block _ _ _ _ tr Hr (round_up_aligned s)
              (proj2 (round_up_range s)) Hm1) as (Hl & _ & Hout).
  pose proof Hr as (Hn & _ & _ & _ & Hfresh)%reply_ok_spec.
  eexists _, _. split; [exact Hrun |].
  split; [by apply free_live |]. cbn [st_mem st_trace].
  replace (base + sizeof_header - sizeof_header) with base by lia.
  split.
  - apply map_eq. intros i. rewrite lookup_unmap, Z2Nat.id by lia.
    case_decide; [by rewrite Hfresh | by apply Hout].
  - unfold tr. by rewrite <- app_assoc.
Qed.

(** ** [free] *)

(** X9: whatever pointer it is given, a [free] that returns has only taken
    addresses away: no byte is written, nothing is mapped, and at most one
    system call, a [munmap], is made (whether the operating system carries
    it out on whole pages or refuses it). *)
Theorem free_only_unmaps ptr st st' :
  free ptr st = Ok tt st' →
  st_mem st' ⊆ st_mem st ∧
  (st_trace st' = st_trace st ∨
   ∃ addr len, st_trace st' = st_trace st ++ [Munmap addr len]).
Proof.
  unfold free. destruct (ptr =? NULL).
  - intros [= <-]. split; [done | by left].
  - unfold bind, get_block_size, munmap.
    destruct (load_size _ _) as [v |]; [| done].
    destruct (_ && _); intros [= <-]; cbn [st_mem st_trace];
      (split; [| right; by eexists _, _]); [| done].
    apply map_subseteq_spec. intros i x. rewrite lookup_unmap.
    case_decide; done.
Qed.

Lemma load_size_unmapped (m : gmap Z Z) a :
  m !! a = None → load_size m a = None.
Proof.
  intros Ha. unfold load_size.
  destruct platform_facts as (H0 & _).
  destruct (Z.to_nat sizeof_size_t) as [| k] eqn:Hk; [lia |].
  simpl. by rewrite Ha.
Qed.

(** A non-null pointer whose header address is not mapped cannot be released
    or resized: reading the header faults. *)
Lemma dead_pointer_faults st p :
  p ≠ NULL → st_mem st !! wrap (p - sizeof_header) = None →
  free p st = Fault ∧ ∀ reply s, realloc reply p s st = Fault.
Proof.
  intros Hp Hdead. unfold NULL in Hp.
  assert (Hfree : free p st = Fault).
  { unfold free, NULL. destruct (Z.eqb_spec p 0); [done |].
    unfold bind, get_block_size. by rewrite load_size_unmapped. }
  split; [done |]. intros reply s. unfold realloc.
  destruct (s =? 0).
  - unfold bind. by rewrite Hfree.
  - unfold NULL. destruct (Z.eqb_spec p 0); [done |].
    unfold bind, get_block_size. by rewrite load_size_unmapped.
Qed.

(** X10: after a live block has been released, its pointer is dead: a second
    [free], and any [realloc], faults on the unmapped header. *)
Theorem double_free_faults st p total :
  live st p total →
  ∃ st',
    free p st = Ok tt st' ∧
    free p st' = Fault ∧
    ∀ reply s, realloc reply p s st' = Fault.
Proof.
  intros Hl. pose proof (live_bounds _ _ _ Hl) as (_ & _ & Hp & _ & Hw).
  pose proof Hl as (_ & _ & Ht & _)%live_spec.
  eexists. split; [by apply free_live |].
  apply dead_pointer_faults; [unfold NULL; lia |]. cbn [st_mem].
  rewrite Hw, lookup_unmap, Z2Nat.id by lia. case_decide; [done | lia].
Qed.

(** ** [calloc] *)

(** X11: when the product of [count] and [size] is 0 modulo [SIZE_MAX + 1]
    (one of them is 0, or the multiplication overflows to 0), [calloc]
    returns [NULL] without any system call and leaves the state as it was. *)
Theorem calloc_zero_product reply count size st :
  wrap (count * size) = 0 →
  calloc reply count size st = Ok NULL st.
Proof.
  intros Hz. apply calloc_null. rewrite Hz. apply maxlloc_zero.
Qed.

(** ** [realloc] *)

(** X12: [realloc(NULL, size)] is [maxlloc(size)] for every size, 0
    included. *)
Theorem realloc_null_is_maxlloc reply size st :
  realloc reply NULL size st = maxlloc reply size st.
Proof.
  destruct (decide (size = 0)) as [-> | Hs]; [| by apply realloc_null].
  rewrite realloc_zero, maxlloc_zero. unfold release_then_null.
  by rewrite free_null.
Qed.

(** X13: the capacity of a live block is its stored size less the header. A
    nonzero request within it is served in place, state untouched; a request
    beyond it (one that does not wrap) never returns the old pointer. *)
Theorem realloc_in_place_threshold st reply p total size :
  live st p total → 0 < size →
  (size + sizeof_header ≤ total → realloc reply p size st = Ok p st) ∧
  (total < size + sizeof_header →
   size + sizeof_header + getpagesize - 1 < size_modulus →
   reply_ok st (_maxlloc_round_up_to_page_size size) reply →
   ∃ q st', realloc reply p size st = Ok q st' ∧ q ≠ p).
Proof.
  intros Hl Hs.
  pose proof (live_bounds _ _ _ Hl) as (Hpt & _ & Hp & Htm & _).
  pose proof Hl as (_ & _ & _ & Hta & _)%live_spec.
  destruct platform_facts as (H0 & H1 & H2 & _).
  pose proof getpagesize_bounds as [Hp1 Hp2].
  split.
  - intros Hfit. apply (realloc_fits _ _ _ total); [done | lia |].
    destruct (Z_lt_ge_dec (size + sizeof_header + getpagesize - 1)
                size_modulus) as [Hno | Hwrap].
    + apply round_up_le_fits; done || lia.
    + rewrite round_up_top_zero by lia. lia.
  - intros Hbig Hno Hr.
    pose proof (round_up_ge size ltac:(lia) Hno) as Hge.
    assert (Hlt : total < _maxlloc_round_up_to_page_size size) by lia.
    destruct reply as [base |].
    + destruct (realloc_moved _ _ _ _ _ Hl Hlt Hr) as (m' & Hrun & Hne & _).
      eexists _, _. split; [exact Hrun | done].
    + eexists _, _. split; [by eapply realloc_refused |]. unfold NULL. lia.
Qed.

(** X14: on a live block, a request in the last page-and-a-header of the
    [size_t] range is answered with the old pointer and no system call,
    whatever the block's capacity: the wrapped rounded size never exceeds
    one page. *)
Theorem realloc_top_in_place st reply p total size :
  live st p total →
  size_modulus - getpagesize - sizeof_header < size < size_modulus →
  realloc reply p size st = Ok p st.
Proof.
  intros Hl Hs.
  pose proof (live_bounds _ _ _ Hl) as (Hpt & _).
  destruct platform_facts as (H0 & H1 & H2 & _).
  pose proof getpagesize_bounds as [Hp1 Hp2].
  apply (realloc_fits _ _ _ total); [done | lia |].
  destruct (Z_lt_ge_dec (size_modulus - sizeof_header) size).
  - rewrite round_up_top_page by lia. done.
  - rewrite round_up_top_zero by lia. lia.
Qed.

(** X15: a [realloc] that moves a block touches nothing else: every address
    outside the old and the new block keeps its content. Without
    wrap-around the new payload has room for the whole request. *)
Theorem realloc_moved_frame st p total size base :
  live st p total →
  total < _maxlloc_round_up_to_page_size size →
  reply_ok st (_maxlloc_round_up_to_page_size size) (Some base) →
  ∃ st',
    realloc (Some base) p size st = Ok (base + sizeof_header) st' ∧
    (∀ i, ¬ (base ≤ i < base + _maxlloc_round_up_to_page_size size) →
          ¬ (p - sizeof_header ≤ i < p - sizeof_header + total) →
          st_mem st' !! i = st_mem st !! i) ∧
    (0 ≤ size → size + sizeof_header + getpagesize - 1 < size_modulus →
     ∀ j, 0 ≤ j < size → is_Some (st_mem st' !! (base + sizeof_header + j))).
Proof.
  intros Hl Hlt Hr.
  destruct (realloc_moved _ _ _ _ _ Hl Hlt Hr)
    as (m' & Hrun & _ & _ & _ & _ & Hmapped & _ & Hout).
  destruct platform_facts as (H0 & H1 & H2 & _).
  eexists. split; [exact Hrun |]. cbn [st_mem]. split; [done |].
  intros Hs Hno j Hj. pose proof (round_up_ge size Hs Hno).
  apply Hmapped. lia.
Qed.

(** X16: after a [realloc] that moved a block, the old pointer is dead:
    releasing or resizing it again faults. *)
Theorem realloc_old_pointer_dead st p total size base :
  live st p total →
  total < _maxlloc_round_up_to_page_size size →
  reply_ok st (_maxlloc_round_up_to_page_size size) (Some base) →
  ∃ st',
    realloc (Some base) p size st = Ok (base + sizeof_header) st' ∧
    free p st' = Fault ∧
    ∀ reply s, realloc reply p s st' = Fault.
Proof.
  intros Hl Hlt Hr.
  destruct (realloc_moved _ _ _ _ _ Hl Hlt Hr)
    as (m' & Hrun & _ & _ & _ & _ & _ & Hgone & _).
  pose proof (live_bounds _ _ _ Hl) as (_ & _ & Hp & _ & Hw).
  pose proof Hl as (_ & _ & Ht & _)%live_spec.
  eexists. split; [exact Hrun |].
  apply dead_pointer_faults; [unfold NULL; lia |]. cbn [st_mem].
  rewrite Hw. apply Hgone. lia.
Qed.

(** X17: without wrap-around in the rounding, [calloc] is [maxlloc] of the
    product: same result, same memory, same system calls. The pages come
    zero-filled from the operating system, so the [memset] writes zeros over
    zeros. *)
Theorem calloc_is_maxlloc st reply count size :
  wrap (count * size) + sizeof_header + getpagesize - 1 < size_modulus →
  reply_ok st (_maxlloc_round_up_to_page_size (wrap (count * size))) reply →
  calloc reply count size st = maxlloc reply (wrap (count * size)) st.
Proof.
  intros Hno Hr.
  pose proof (wrap_range (count * size)) as Htr.
  set (total := wrap (count * size)) in *.
  destruct platform_facts as (H0 & H1 & H2 & _).
  destruct (decide (total = 0)) as [Hz | Hnz].
  { rewrite Hz, maxlloc_zero. by apply calloc_zero_product. }
  destruct reply as [base |]; cycle 1.
  { rewrite (maxlloc_refused _ _ Hnz).
    apply calloc_null. by apply maxlloc_refused. }
  pose proof (round_up_ge total (proj1 Htr) Hno) as Hge.
  destruct (maxlloc_granted _ _ _ Hnz Hr) as (m1 & Hm1 & Hrun).
  set (n := _maxlloc_round_up_to_page_size total) in *.
  destruct (new_block _ _ _ _ (st_trace st ++ [Mmap n base]) Hr
              (round_up_aligned total) (proj2 (round_up_range total)) Hm1)
    as (Hl & Hz & _).
  apply live_spec in Hl as (_ & _ & _ & _ & _ & _ & Hmapped).
  cbn [st_mem] in Hmapped.
  pose proof Hr as (_ & Hb & _)%reply_ok_spec.
  unfold calloc, bind. fold total. rewrite Hrun. unfold NULL.
  destruct (Z.eqb_spec (base + sizeof_header) 0) as [| _]; [lia |].
  cbn [negb]. unfold memset. cbn [st_mem st_trace].
  change (0 mod 256) with 0.
  destruct (write_bytes_mapped m1 (base + sizeof_header)
              (replicate (Z.to_nat total) 0)) as [m2 Hm2].
  { rewrite length_replicate. apply all_mapped_spec. intros i Hi.
    apply Hmapped. lia. }
  rewrite Hm2. unfold ret. do 2 f_equal.
  apply map_eq. intros i.
  rewrite (write_bytes_lookup _ _ _ _ _ Hm2), length_replicate.
  rewrite Z2Nat.id by lia. case_decide; [| done].
  rewrite Hz by lia. apply lookup_replicate_2. lia.
Qed.

(** X18: nothing leaks through a moving [realloc]. A block obtained from
    [maxlloc], grown by a [realloc] that moves it and then released leaves
    the memory exactly as it was before the [maxlloc]. *)
Theorem maxlloc_realloc_free_restores st s s2 base base2 :
  s ≠ 0 →
  reply_ok st (_maxlloc_round_up_to_page_size s) (Some base) →
  _maxlloc_round_up_to_page_size s < _maxlloc_round_up_to_page_size s2 →
  ∃ st1,
    maxlloc (Some base) s st = Ok (base + sizeof_header) st1 ∧
    (reply_ok st1 (_maxlloc_round_up_to_page_size s2) (Some base2) →
     ∃ st2 st3,
       realloc (Some base2) (base + sizeof_header) s2 st1 =
         Ok (base2 + sizeof_header) st2 ∧
       free (base2 + sizeof_header) st2 = Ok tt st3 ∧
       st_mem st3 = st_mem st).
Proof.
  intros Hs Hr Hgrow.
  destruct (maxlloc_granted _ _ _ Hs Hr) as (m1 & Hm1 & Hrun).
  set (n := _maxlloc_round_up_to_page_size s) in *.
  set (n2 := _maxlloc_round_up_to_page_size s2) in *.
  set (st1 := mkState m1 (st_trace st ++ [Mmap n base])) in *.
  destruct (new_block _ _ _ _ (st_trace st1) Hr (round_up_aligned s)
              (proj2 (round_up_range s)) Hm1) as (Hl & _ & Hout).
  fold st1 in Hl.
  exists st1. split; [exact Hrun |]. intros Hr2.
  destruct (realloc_moved _ _ _ _ _ Hl Hgrow Hr2)
    as (m2 & Hrun2 & _ & Hload2 & _ & _ & Hmapped2 & Hgone & Hout2).
  fold n2 in Hrun2, Hload2, Hmapped2, Hout2.
  replace (base + sizeof_header - sizeof_header) with base in * by lia.
  pose proof Hr as (Hn & _ & _ & _ & Hfresh)%reply_ok_spec.
  pose proof Hr2 as (Hn2 & Hb2 & Hba2 & Hend2 & Hfresh2)%reply_ok_spec.
  cbn [st_mem] in Hfresh2, Hout2.
  eexists _, _. split; [exact Hrun2 |]. split.
  - apply free_live, block_live; try done. apply round_up_aligned.
  - cbn [st_mem].
    replace (base2 + sizeof_header - sizeof_header) with base2 by lia.
    apply map_eq. intros i. rewrite lookup_unmap, Z2Nat.id by lia.
    destruct (decide (base ≤ i < base + n)) as [Hin | Hnin].
    + rewrite (Hfresh i Hin). case_decide; [done | by apply Hgone].
    + rewrite <- (Hout i Hnin). case_decide; [by rewrite Hfresh2 |].
      by apply Hout2.
Qed.

End Properties.

(** ** The size rounder on the 64-bit platform *)

Lemma LP64_ok : @platform_ok LP64.
Proof. reflexivity. Qed.

(** C1, as the code has it: for every request [s] for which
    [s + sizeof(MaxllocHeader) + page size - 1] does not exceed [SIZE_MAX],
    the rounder returns the smallest multiple of the page size that is at
    least [s + sizeof(MaxllocHeader)], and that is the length [maxlloc] asks
    the operating system for. With 4096-byte pages and an 8-byte header,
    requests of 1 and of 4088 bytes reserve 4096 bytes; requests of 4089 and
    of 4090 bytes reserve 8192. *)
Theorem round_up_smallest_page_multiple :
  (∀ pf : Platform, platform_ok →
     ∀ s, 0 ≤ s → s + sizeof_header + getpagesize - 1 < size_modulus →
          least_page_multiple_ge (s + sizeof_header)
            (_maxlloc_round_up_to_page_size s)) ∧
  (∀ (pf : Platform) reply s st p st',
     s ≠ 0 → maxlloc reply s st = Ok p st' →
     ∃ r, st_trace st' =
          st_trace st ++ [Mmap (_maxlloc_round_up_to_page_size s) r]) ∧
  @_maxlloc_round_up_to_page_size LP64 1 = 4096 ∧
  @_maxlloc_round_up_to_page_size LP64 4088 = 4096 ∧
  @_maxlloc_round_up_to_page_size LP64 4089 = 8192 ∧
  @_maxlloc_round_up_to_page_size LP64 4090 = 8192.
Proof.
  split_and!; try reflexivity.
  - intros pf Hpf s. by apply round_up_least.
  - intros pf reply s st p st'. apply maxlloc_trace.
Qed.

Lemma round_up_smallest_page_multiple_witness :
  @least_page_multiple_ge LP64 (100 + 8)
    (@_maxlloc_round_up_to_page_size LP64 100).
Proof.
  apply (proj1 round_up_smallest_page_multiple LP64 LP64_ok 100).
  - lia.
  - vm_compute. reflexivity.
Defined.

(** C1 as stated fails twice on the 64-bit platform: a request of 4090 bytes
    reserves 8192 bytes, not 4096; and for a request of [SIZE_MAX] bytes the
    sum wraps and the rounder returns 4096, which is not at least the
    request plus the header. *)
Lemma round_up_counterexample :
  @_maxlloc_round_up_to_page_size LP64 4090 ≠ 4096 ∧
  @_maxlloc_round_up_to_page_size LP64 (2 ^ 64 - 1) = 4096 ∧
  ¬ @least_page_multiple_ge LP64 (2 ^ 64 - 1 + 8)
      (@_maxlloc_round_up_to_page_size LP64 (2 ^ 64 - 1)).
Proof.
  split_and!.
  - vm_compute. discriminate.
  - vm_compute. reflexivity.
  - intros (_ & Hge & _). vm_compute in Hge. by apply Hge.
Qed.

(** ** The contract at work on [one_block] *)

Lemma one_block_live : @live LP64 one_block 4104 4096.
Proof. vm_compute. reflexivity. Qed.

Lemma realloc_failure_keeps_block_witness :
  ∃ st',
    @realloc LP64 None 4104 5000 one_block = Ok NULL st' ∧
    st_mem st' = st_mem one_block ∧
    @live LP64 st' 4104 4096 ∧
    st_trace st' = st_trace one_block ++ [Mmap 8192 (2 ^ 64 - 1)].
Proof.
  apply (@realloc_failure_keeps_block LP64 LP64_ok one_block 4104 4096 5000).
  - vm_compute. reflexivity.
  - vm_compute. reflexivity.
Defined.

Lemma realloc_in_place_witness :
  @realloc LP64 None 4104 50 one_block = Ok 4104 one_block.
Proof.
  apply (@realloc_in_place LP64 LP64_ok one_block None 4104 4096 50).
  - vm_compute. reflexivity.
  - lia.
  - vm_compute. discriminate.
Defined.

Lemma realloc_moves_block_witness :
  ∃ st',
    @realloc LP64 (Some 8192) 4104 5000 one_block = Ok 8200 st' ∧
    @live LP64 st' 8200 8192 ∧
    st_trace st' =
      st_trace one_block ++ [Mmap 8192 8192; Munmap 4096 4096].
Proof.
  destruct (@realloc_moves_block LP64 LP64_ok one_block 4104 4096 5000 8192)
    as (st' & Hrun & _ & _ & _ & _ & _ & _ & Hl & _ & Htr).
  - vm_compute. reflexivity.
  - vm_compute. reflexivity.
  - vm_compute. reflexivity.
  - exists st'. split_and!; assumption.
Defined.

Lemma calloc_zeroed_witness :
  ∃ st', @calloc LP64 (Some 8192) 10 4 one_block = Ok 8200 st'.
Proof.
  apply (proj2 (proj2 (@calloc_zeroed LP64 LP64_ok one_block (Some 8192) 10 4
                         ltac:(vm_compute; split; reflexivity)
                         ltac:(vm_compute; reflexivity))) 8192).
  - reflexivity.
  - vm_compute. reflexivity.
Defined.

Lemma maxlloc_null_iff_witness :
  ∃ p st',
    @maxlloc LP64 (Some 8192) 100 one_block = Ok p st' ∧
    (p = NULL ↔ 100 = 0 ∨ Some 8192 = @None Z) ∧
    (p ≠ NULL →
     ∃ base,
       Some 8192 = Some base ∧ p = base + 8 ∧
       @live LP64 st' p (@_maxlloc_round_up_to_page_size LP64 100) ∧
       st_trace st' =
         st_trace one_block ++
           [Mmap (@_maxlloc_round_up_to_page_size LP64 100) base]).
Proof.
  destruct (@maxlloc_null_iff LP64 LP64_ok one_block (Some 8192) 100)
    as (p & st' & Hrun & Hnull & _ & _ & _ & Hblock).
  - vm_compute. reflexivity.
  - exists p, st'. split_and!; assumption.
Defined.

Lemma free_unmaps_block_witness :
  ∃ st',
    @free LP64 4104 one_block = Ok tt st' ∧
    st_trace st' = st_trace one_block ++ [Munmap 4096 4096].
Proof.
  destruct (proj2 (@free_unmaps_block LP64 LP64_ok) one_block 4104 4096)
    as (_ & st' & Hrun & Htr & _).
  - vm_compute. reflexivity.
  - exists st'. split; assumption.
Defined.

Lemma returned_pointer_header_past_page_witness :
  @header_past_page LP64 two_blocks 8200.
Proof.
  apply (proj1 (@returned_pointer_header_past_page LP64 LP64_ok)
           one_block (Some 8192) 100 8200 two_blocks).
  - vm_compute. reflexivity.
  - destruct (@maxlloc_granted LP64 LP64_ok 100 8192 one_block)
      as (m' & _ & Hrun).
    + discriminate.
    + vm_compute. reflexivity.
    + unfold two_blocks. rewrite Hrun. reflexivity.
  - discriminate.
Defined.

Lemma calloc_overflow_undersized_witness :
  ∃ count size,
    2 ^ 64 ≤ count * size ∧
    ∀ st base,
      @reply_ok LP64 st
        (@_maxlloc_round_up_to_page_size LP64 (@wrap LP64 (count * size)))
        (Some base) →
      ∃ st',
        @calloc LP64 (Some base) count size st = Ok (base + 8) st' ∧
        @_maxlloc_round_up_to_page_size LP64 (@wrap LP64 (count * size))
        < count * size.
Proof.
  destruct (@calloc_overflow_undersized LP64 LP64_ok)
    as (count & size & _ & _ & Hbig & _ & Hrun).
  exists count, size. split; [exact Hbig |].
  intros st base Hr. destruct (Hrun st base Hr) as (st' & H1 & _ & _ & _ & H2).
  exists st'. split; assumption.
Defined.

(** ** The further properties at work *)

Lemma two_blocks_run :
  @maxlloc LP64 (Some 8192) 100 one_block = Ok 8200 two_blocks.
Proof.
  destruct (@maxlloc_granted LP64 LP64_ok 100 8192 one_block)
    as (m' & _ & Hrun); [discriminate | by vm_compute |].
  unfold two_blocks. by rewrite Hrun.
Qed.

Lemma round_up_always_page_multiple_witness :
  0 ≤ @_maxlloc_round_up_to_page_size LP64 (2 ^ 64 - 1) < @size_modulus LP64 ∧
  (@getpagesize LP64 | @_maxlloc_round_up_to_page_size LP64 (2 ^ 64 - 1)).
Proof.
  apply (@round_up_always_page_multiple LP64). reflexivity.
Defined.

Lemma round_up_fits_iff_witness :
  @_maxlloc_round_up_to_page_size LP64 100 ≤ 4096 ↔ 100 + 8 ≤ 4096.
Proof.
  apply (@round_up_fits_iff LP64 LP64_ok 100 4096).
  - lia.
  - vm_compute. reflexivity.
  - reflexivity.
Defined.

Lemma round_up_top_of_range_witness :
  @_maxlloc_round_up_to_page_size LP64 (2 ^ 64 - 1) =
    (if decide (@size_modulus LP64 - 8 < 2 ^ 64 - 1) then 4096 else 0) ∧
  @_maxlloc_round_up_to_page_size LP64 (2 ^ 64 - 1) < 2 ^ 64 - 1.
Proof.
  apply (@round_up_top_of_range LP64 LP64_ok (2 ^ 64 - 1)).
  vm_compute. split; reflexivity.
Defined.

Lemma maxlloc_top_undersized_witness :
  ∃ st',
    @maxlloc LP64 (Some 8192) (2 ^ 64 - 1) one_block = Ok 8200 st' ∧
    @live LP64 st' 8200 4096 ∧ 4096 - 8 < 2 ^ 64 - 1.
Proof.
  destruct (@maxlloc_top_undersized LP64 LP64_ok (2 ^ 64 - 1) one_block 8192)
    as (st' & Hrun & _ & Hl & _ & Hlt).
  - vm_compute. split; reflexivity.
  - vm_compute. reflexivity.
  - exists st'. split_and!; assumption.
Defined.

Lemma maxlloc_top_refused_witness :
  @maxlloc LP64 None (2 ^ 64 - 4096) one_block =
  Ok NULL (mkState (st_mem one_block)
             (st_trace one_block ++ [Mmap 0 (@MAP_FAILED LP64)])).
Proof.
  apply (@maxlloc_top_refused LP64 LP64_ok (2 ^ 64 - 4096) one_block None).
  - vm_compute. split; [reflexivity | discriminate].
  - reflexivity.
Defined.

Lemma maxlloc_payload_usable_witness :
  ∃ st1,
    @maxlloc LP64 (Some 4096) 100 empty_process = Ok 4104 st1 ∧
    ∃ st2,
      memset 4104 300 100 st1 = Ok tt st2 ∧
      (∀ i, 4104 ≤ i < 4104 + 100 → st_mem st2 !! i = Some 44) ∧
      @live LP64 st2 4104 4096.
Proof.
  destruct (@maxlloc_payload_usable LP64 LP64_ok 100 empty_process 4096)
    as (st1 & Hrun & _ & Hset).
  - lia.
  - vm_compute. reflexivity.
  - vm_compute. reflexivity.
  - exists st1. split; [exact Hrun |]. exact (Hset 300).
Defined.

Lemma maxlloc_frame_witness : @live LP64 two_blocks 4104 4096.
Proof.
  apply (proj2 (@maxlloc_frame LP64 LP64_ok one_block (Some 8192) 100 8200
                  two_blocks ltac:(by vm_compute) two_blocks_run)).
  vm_compute. reflexivity.
Defined.

Lemma maxlloc_free_restores_witness :
  ∃ st1 st2,
    @maxlloc LP64 (Some 4096) 100 empty_process = Ok 4104 st1 ∧
    @free LP64 4104 st1 = Ok tt st2 ∧
    st_mem st2 = st_mem empty_process.
Proof.
  destruct (@maxlloc_free_restores LP64 LP64_ok 100 empty_process 4096)
    as (st1 & st2 & Hrun & Hfree & Hmem & _).
  - discriminate.
  - vm_compute. reflexivity.
  - exists st1, st2. split_and!; assumption.
Defined.

Lemma free_only_unmaps_witness :
  ∃ st', @free LP64 4104 one_block = Ok tt st' ∧
         st_mem st' ⊆ st_mem one_block.
Proof.
  pose proof (@free_live LP64 LP64_ok one_block 4104 4096 one_block_live)
    as Hrun.
  eexists. split; [exact Hrun |].
  exact (proj1 (@free_only_unmaps LP64 4104 one_block _ Hrun)).
Defined.

Lemma double_free_faults_witness :
  ∃ st',
    @free LP64 4104 one_block = Ok tt st' ∧
    @free LP64 4104 st' = Fault ∧
    ∀ reply s, @realloc LP64 reply 4104 s st' = Fault.
Proof.
  apply (@double_free_faults LP64 LP64_ok one_block 4104 4096).
  vm_compute. reflexivity.
Defined.

Lemma calloc_zero_product_witness :
  @calloc LP64 (Some 8192) (2 ^ 32) (2 ^ 32) one_block = Ok NULL one_block.
Proof.
  apply (@calloc_zero_product LP64 (Some 8192) (2 ^ 32) (2 ^ 32) one_block).
  reflexivity.
Defined.

Lemma realloc_in_place_threshold_witness :
  @realloc LP64 None 4104 4088 one_block = Ok 4104 one_block ∧
  ∃ q st', @realloc LP64 (Some 8192) 4104 4089 one_block = Ok q st' ∧
           q ≠ 4104.
Proof.
  split.
  - apply (proj1 (@realloc_in_place_threshold LP64 LP64_ok one_block None
                    4104 4096 4088 one_block_live ltac:(lia))).
    vm_compute. discriminate.
  - apply (proj2 (@realloc_in_place_threshold LP64 LP64_ok one_block
                    (Some 8192) 4104 4096 4089 one_block_live ltac:(lia))).
    + vm_compute. reflexivity.
    + vm_compute. reflexivity.
    + vm_compute. reflexivity.
Defined.

Lemma realloc_top_in_place_witness :
  @realloc LP64 None 4104 (2 ^ 64 - 1) one_block = Ok 4104 one_block.
Proof.
  apply (@realloc_top_in_place LP64 LP64_ok one_block None 4104 4096).
  - vm_compute. reflexivity.
  - vm_compute. split; reflexivity.
Defined.

Lemma realloc_moved_frame_witness :
  ∃ st',
    @realloc LP64 (Some 8192) 4104 5000 one_block = Ok 8200 st' ∧
    ∀ j, 0 ≤ j < 5000 → is_Some (st_mem st' !! (8200 + j)).
Proof.
  destruct (@realloc_moved_frame LP64 LP64_ok one_block 4104 4096 5000 8192)
    as (st' & Hrun & _ & Hroom).
  - vm_compute. reflexivity.
  - vm_compute. reflexivity.
  - vm_compute. reflexivity.
  - exists st'. split; [exact Hrun |]. apply Hroom.
    + lia.
    + vm_compute. reflexivity.
Defined.

Lemma realloc_old_pointer_dead_witness :
  ∃ st',
    @realloc LP64 (Some 8192) 4104 5000 one_block = Ok 8200 st' ∧
    @free LP64 4104 st' = Fault ∧
    ∀ reply s, @realloc LP64 reply 4104 s st' = Fault.
Proof.
  apply (@realloc_old_pointer_dead LP64 LP64_ok one_block 4104 4096 5000 8192).
  - vm_compute. reflexivity.
  - vm_compute. reflexivity.
  - vm_compute. reflexivity.
Defined.

Lemma calloc_is_maxlloc_witness :
  @calloc LP64 (Some 8192) 10 4 one_block =
  @maxlloc LP64 (Some 8192) (@wrap LP64 (10 * 4)) one_block.
Proof.
  apply (@calloc_is_maxlloc LP64 LP64_ok one_block (Some 8192) 10 4).
  - vm_compute. reflexivity.
  - vm_compute. reflexivity.
Defined.

Lemma maxlloc_realloc_free_restores_witness :
  ∃ st1 st2 st3,
    @maxlloc LP64 (Some 4096) 100 empty_process = Ok 4104 st1 ∧
    @realloc LP64 (Some 8192) 4104 5000 st1 = Ok 8200 st2 ∧
    @free LP64 8200 st2 = Ok tt st3 ∧
    st_mem st3 = st_mem empty_process.
Proof.
  destruct (@maxlloc_realloc_free_restores LP64 LP64_ok empty_process
              100 5000 4096 8192) as (st1 & Hrun & Hrest).
  - discriminate.
  - vm_compute. reflexivity.
  - vm_compute. reflexivity.
  - assert (st1 = one_block) as ->.
    { unfold one_block. by rewrite Hrun. }
    destruct Hrest as (st2 & st3 & Hrun2 & Hfree & Hmem).
    + vm_compute. reflexivity.
    + exists one_block, st2, st3. split_and!; assumption.
Defined.
